(** * tor-fetch: the Tor ControlPort client and session renewal

    A shallow embedding of [createProxySettings],
    [attachCommonControlPortErrorDetails], [getTorrcLocation],
    [TorControlPort.send] and [renewTorSession], followed by the properties
    of the control-channel client that the specification states.

    The repository holds two revisions of the module: an earlier one with a
    default export, and the current one with named exports (the one the test
    suite imports).  For the functions embedded here they differ in the
    wording of the hint, in what the renewal callback does when it is handed
    no data, and in how the default proxy settings come about; [Revision]
    selects the wording and the callback, and the statements that depend on
    them are made for both. *)

From Stdlib Require Import String Ascii List ZArith Lia Bool Arith.
From Stdlib Require Import DecimalString DecimalZ.
Import ListNotations.
Open Scope string_scope.

(* ================================================================== *)
(** * JavaScript primitives used by the module *)

(** The characters that cannot be written inside a literal. *)
Definition nl : string := String "010"%char EmptyString.
Definition cr : string := String "013"%char EmptyString.
Definition dquote : string := String "034"%char EmptyString.

(** [s.slice(n)] for [0 <= n]: the text after the first [n] characters. *)
Fixpoint drop (n : nat) (s : string) : string :=
  match n, s with
  | O, _ => s
  | S _, EmptyString => EmptyString
  | S k, String _ s' => drop k s'
  end.

(** [s.includes(sub)]: [sub] occurs in [s] at some position. *)
Fixpoint includes (s sub : string) : bool :=
  prefix sub s ||
  match s with
  | EmptyString => false
  | String _ s' => includes s' sub
  end.

(** The number of positions of [s] at which [sub] occurs (occurrences may
    overlap). *)
Fixpoint occurrences (sub s : string) : nat :=
  (if prefix sub s then 1 else 0) +
  match s with
  | EmptyString => 0
  | String _ s' => occurrences sub s'
  end.

(** [l.join(sep)]. *)
Definition join (l : list string) (sep : string) : string := String.concat sep l.

(** The leftmost occurrence of [sep] in [s]: the text before it and the text
    after it. *)
Fixpoint cut (sep s : string) : option (string * string) :=
  if prefix sep s then Some (EmptyString, drop (String.length sep) s)
  else match s with
       | EmptyString => None
       | String c s' =>
           match cut sep s' with
           | Some (b, a) => Some (String c b, a)
           | None => None
           end
       end.

(** The scan of [String.prototype.split] for a non-empty separator: cut at
    the leftmost occurrence and go on after it.  Every cut consumes at least
    one character, so [length s] rounds are enough ([split_fuel_enough]). *)
Fixpoint split_fuel (fuel : nat) (sep s : string) : list string :=
  match fuel with
  | O => [s]
  | S k =>
      match cut sep s with
      | None => [s]
      | Some (b, a) => b :: split_fuel k sep a
      end
  end.

(** [s.split(sep)].  With the empty separator JavaScript splits into single
    characters. *)
Definition split (s sep : string) : list string :=
  match sep with
  | EmptyString =>
      map (fun c => String c EmptyString) (list_ascii_of_string s)
  | String _ _ => split_fuel (String.length s) sep s
  end.

(** Relative index of [Array.prototype.slice]: negative indices count from
    the end, and everything is clamped to [0 .. len]. *)
Definition rel_index (len k : Z) : Z :=
  if (k <? 0)%Z then Z.max (len + k) 0 else Z.min k len.

(** [l.slice(start, stop)]. *)
Definition slice {A : Type} (l : list A) (start stop : Z) : list A :=
  let len := Z.of_nat (List.length l) in
  let k := rel_index len start in
  let final := rel_index len stop in
  firstn (Z.to_nat (Z.max (final - k) 0)) (skipn (Z.to_nat k) l).

(** [l.every(p)]. *)
Definition every {A : Type} (l : list A) (p : A -> bool) : bool := forallb p l.

(** Truthiness of a string and of a number ([NaN] is not modelled). *)
Definition truthy_string (s : string) : bool :=
  match s with EmptyString => false | String _ _ => true end.
Definition truthy_number (n : Z) : bool := negb (n =? 0)%Z.

(** [a || b] on values that may be [undefined]. *)
Definition js_or {A : Type} (truthy : A -> bool) (a b : option A) : option A :=
  match a with
  | Some x => if truthy x then a else b
  | None => b
  end.

(** [a || d] where [d] is a literal. *)
Definition or_default {A : Type} (truthy : A -> bool) (a : option A) (d : A) : A :=
  match a with
  | Some x => if truthy x then x else d
  | None => d
  end.

(* ================================================================== *)
(** * The module *)

(** The two revisions of the module kept in the repository. *)
Inductive Revision : Type :=
| DefaultExport   (* the earlier file, [export default torFetch] *)
| NamedExports.   (* the current file, [export const torfetch], ... *)

(** ** Proxy settings *)

Record ProxySettings : Type := {
  ipaddress : string;
  port : Z;
  type : Z
}.

(** [createProxySettings(ipaddress?, port?, type?)].  [dps] is the value of
    the module variable [_defaultProxySettings] at the call; [None] stands
    for [undefined], which the earlier revision replaces by an empty object
    (every field of which is [undefined]). *)
Definition createProxySettings (dps : option ProxySettings)
    (ip : option string) (prt typ : option Z) : ProxySettings :=
  let proxySetup :=
    {| ipaddress :=
         or_default truthy_string
           (js_or truthy_string ip (option_map ipaddress dps)) "127.0.0.1";
       port :=
         or_default truthy_number
           (js_or truthy_number prt (option_map port dps)) 9050%Z;
       type :=
         or_default truthy_number
           (js_or truthy_number typ (option_map type dps)) 5%Z |} in
  if (ipaddress proxySetup =? "localhost")%string
  then {| ipaddress := "127.0.0.1";
          port := port proxySetup;
          type := type proxySetup |}
  else proxySetup.

(** The value [_defaultProxySettings] holds once the current revision is
    loaded: it starts from a literal and is then assigned the result of
    [createProxySettings('localhost', 9050)].  In the earlier revision the
    initialiser of the variable calls [createProxySettings] ahead of its
    declaration, so the variable is never given a value there; its guard
    [_defaultProxySettings || {}] is the case [dps = None] above. *)
Definition _defaultProxySettings : ProxySettings :=
  createProxySettings
    (Some {| ipaddress := "127.0.0.1"; port := 9050%Z; type := 5%Z |})
    (Some "localhost") (Some 9050%Z) None.

(** ** The runtime the module finds itself in *)

(** Which Node modules are loaded, and what they answer.  [torrc_exists p]
    is the outcome of
    [fs.existsSync(path.resolve(p).replace('~', os.homedir()))], with a probe
    that throws counted as [false] (the [catch] ignores it). *)
Record Env : Type := {
  net_loaded : bool;
  os_EOL : option string;       (* [os?.EOL]; [None] when [os] is undefined *)
  fs_loaded : bool;
  path_loaded : bool;
  torrc_exists : string -> bool
}.

Definition suffixes : list string := [EmptyString; ".sample"].

Definition paths : list string :=
  [ "/usr/local/etc/tor/torrc";
    "/tor/etc/tor/torrc";
    "/etc/tor/torrc";
    "/lib/etc/tor/torrc";
    "~/.torrc";
    "~/Library/Application Support/TorBrowser-Data/torrc" ].

(** The inner loop of [getTorrcLocation] over the suffixes. *)
Fixpoint probe_suffixes (env : Env) (torPath : string) (sfx : list string)
  : option string :=
  match sfx with
  | [] => None
  | suffix :: rest =>
      if torrc_exists env (torPath ++ suffix) then Some (torPath ++ " ?")
      else probe_suffixes env torPath rest
  end.

(** The outer loop of [getTorrcLocation] over the candidate paths. *)
Fixpoint probe_paths (env : Env) (ps : list string) : option string :=
  match ps with
  | [] => None
  | torPath :: rest =>
      match probe_suffixes env torPath suffixes with
      | Some found => Some found
      | None => probe_paths env rest
      end
  end.

Definition getTorrcLocation (env : Env) : string :=
  if negb (path_loaded env) || negb (fs_loaded env)
     || match os_EOL env with None => true | Some _ => false end
  then "torrc not available in browser environment"
  else match probe_paths env paths with
       | Some found => found
       | None => "torrc not found, specify with `tor --default-torrc <PATH>`"
       end.

(** ** Errors and the ControlPort hint *)

(** A JavaScript [Error]; only its [message] (typed [string]) matters here. *)
Record Error : Type := { message : string }.

(** The line of the hint that carries the guide's address, and the name the
    sample code gives to the import: the two places where the revisions
    word the hint differently. *)
Definition guide_line (rev : Revision) : string :=
  match rev with
  | DefaultExport =>
      "https://github.com/talmobi/tor-request#optional-configuring-tor-enabling-the-controlport"
  | NamedExports => "https:"
  end.

Definition import_name (rev : Revision) : string :=
  match rev with
  | DefaultExport => "torFetch"
  | NamedExports => "torfetch"
  end.

(** The question every hint opens with, after the leading dash. *)
Definition hint_question : string :=
  "Have you enabled the ControlPort in your `torrc` file?".

(** The template literal [attachment] with [location] for
    [getTorrcLocation()]. *)
Definition attachment (rev : Revision) (location : string) : string :=
  " - " ++ hint_question ++ " (" ++ location ++ ")" ++ nl ++
  nl ++
  "See easy guide here (OSX, Linux, Windows):" ++ nl ++
  guide_line rev ++ nl ++
  nl ++
  " Sample torrc file:" ++ nl ++
  "     ControlPort 9051" ++ nl ++
  "     HashedControlPassword 16:AEBC98A67.....E81DF" ++ nl ++
  nl ++
  "   Generate HashedControlPassword with (last output line):" ++ nl ++
  "     `tor --hash-password my_secret_password`" ++ nl ++
  nl ++
  "   Tell tor-request the password to use:" ++ nl ++
  "     `import " ++ import_name rev ++ " from " ++
     dquote ++ "tor-request" ++ dquote ++ ";" ++ nl ++
  "      " ++ import_name rev ++ ".TorControlPort.password = " ++
     dquote ++ "my_secret_password" ++ dquote ++ ";`" ++ nl.

(** [attachCommonControlPortErrorDetails(err)].  The function updates
    [err.message] in place; the result is the error as it stands afterwards
    ([None] for [null], which is left alone).  A message is a string here,
    so the test on [typeof err.message] always lets the error through. *)
Definition attachCommonControlPortErrorDetails (rev : Revision) (env : Env)
    (err : option Error) : option Error :=
  match err with
  | None => None
  | Some e =>
      let attachment := attachment rev (getTorrcLocation env) in
      if negb (includes (message e) attachment)
      then Some {| message := message e ++ attachment |}
      else Some e
  end.

(** ** The control channel *)

(** The object [TorControlPort] without its method.  A caller may overwrite
    the fields at any time; [password = None] stands for a password that was
    unset ([undefined]). *)
Record TorControlPortType : Type := {
  password : option string;
  host : string;
  control_port : Z       (* the field [port] *)
}.

(** The object as the module creates it. *)
Definition TorControlPort : TorControlPortType :=
  {| password := Some EmptyString; host := "localhost"; control_port := 9051%Z |}.

(** What the socket reports, in the order it reports it.  Node hands an
    [Error] object to every listener of ['error']. *)
Inductive SocketEvent : Type :=
| OnConnect                    (* the connect listener given to [net.connect] *)
| OnError (err : Error)        (* ['error'] *)
| OnData (chunk : string)      (* ['data']: what [chunk.toString()] gives
                                  for this chunk, decoded on its own *)
| OnEnd.                       (* ['end'], the peer closed *)

(** What the module does that can be seen from outside. *)
Inductive Effect : Type :=
| Connect (h : string) (p : Z)   (* [net.connect({ host, port }, ...)] *)
| Write (bytes : string)         (* [socket.write(commandString)] *)
| Classify (raw : string)        (* [lines] and [success] computed from [raw] *)
| Throw (what : string)          (* an exception that leaves the listener *)
| Done (err : option Error) (value : option string).
                                 (* the caller's [done(err, value)] *)

(** A [done] callback: what happens when it is called. *)
Definition Callback : Type := option Error -> option string -> list Effect.

(** The callback of a caller that only takes note of the outcome. *)
Definition report : Callback := fun err value => [Done err value].

Section Send.
Variables (rev : Revision) (env : Env).
Variable commands : list string.
Variable done : Callback.

(** The connect listener. *)
Definition on_connect : list Effect :=
  let commandString := join commands nl ++ nl in
  [Write commandString].

(** The ['error'] listener.  It is written for an [err] that may be
    [null]; the socket never passes one. *)
Definition on_error (err : option Error) : list Effect :=
  let err := attachCommonControlPortErrorDetails rev env err in
  done (Some (or_default (fun _ => true) err
                {| message := "ControlPort communication error" |}))
       None.

(** The ['data'] listener: [data += chunk.toString()]. *)
Definition on_data (data chunk : string) : string := data ++ chunk.

(** The ['end'] listener. *)
Definition on_end (data : string) : list Effect := done None (Some data).

(** The listeners run over the events of one socket; [data] is the
    accumulator they share. *)
Fixpoint listen (data : string) (events : list SocketEvent) : list Effect :=
  match events with
  | [] => []
  | OnConnect :: rest => (on_connect ++ listen data rest)%list
  | OnError err :: rest => (on_error (Some err) ++ listen data rest)%list
  | OnData chunk :: rest => listen (on_data data chunk) rest
  | OnEnd :: rest => (on_end data ++ listen data rest)%list
  end.

(** [TorControlPort.send(commands, done)], followed through the events of
    the socket it opens.  [tcp] is the state of [TorControlPort] when the
    call is made.  A run is one in which [net.connect] gives a socket: Node
    refuses a port outside [0 .. 65535] by throwing from [net.connect], and
    then there is no socket and there are no events. *)
Definition send (tcp : TorControlPortType) (events : list SocketEvent)
  : list Effect :=
  if negb (net_loaded env)
  then done (Some {| message :=
                "ControlPort is not available in browser environment" |})
            None
  else Connect (host tcp) (control_port tcp) :: listen EmptyString events.
End Send.

(** ** Session renewal *)

(** [os?.EOL || '\n']. *)
Definition line_terminator (env : Env) : string :=
  or_default truthy_string (os_EOL env) nl.

(** [data.split(os?.EOL || '\n').slice(0, -1)]. *)
Definition lines (env : Env) (data : string) : list string :=
  slice (split data (line_terminator env)) 0 (-1).

(** [lines.every((val) => val.length <= 0 || val.includes('250'))]. *)
Definition success (env : Env) (data : string) : bool :=
  every (lines env data)
        (fun val => (String.length val <=? 0)%nat || includes val "250").

Definition renewed : string := "Tor session successfully renewed!!".
Definition preamble : string := "Error communicating with Tor ControlPort".

(** [new Error(`Error communicating with Tor ControlPort\n${data}`)] with the
    hint attached. *)
Definition comerr (rev : Revision) (env : Env) (data : string) : option Error :=
  attachCommonControlPortErrorDetails rev env
    (Some {| message := preamble ++ nl ++ data |}).

(** The callback [renewTorSession] hands to [send].  When [err] is unset the
    data is classified; [send] always passes a string then.  Without one,
    [lines] is [undefined]: the earlier revision calls [every] on it and
    throws, the current one takes [success] to be [false] and reports the
    text [undefined]. *)
Definition renew_callback (rev : Revision) (env : Env) (done : Callback)
  : Callback :=
  fun err data =>
    match err with
    | Some _ =>
        done (attachCommonControlPortErrorDetails rev env err) None
    | None =>
        match data with
        | Some raw =>
            Classify raw ::
            (if negb (success env raw)
             then done (comerr rev env raw) None
             else done None (Some renewed))
        | None =>
            match rev with
            | DefaultExport =>
                [Throw "TypeError: Cannot read properties of undefined"]
            | NamedExports => done (comerr rev env "undefined") None
            end
        end
    end.

(** [renewTorSession(done)], followed through the events of the socket. *)
Definition renewTorSession (rev : Revision) (env : Env)
    (tcp : TorControlPortType) (done : Callback) (events : list SocketEvent)
  : list Effect :=
  let password := or_default truthy_string (password tcp) EmptyString in
  let commands :=
    [ "authenticate " ++ dquote ++ password ++ dquote;
      "signal newnym";
      "quit" ] in
  send rev env commands (renew_callback rev env done) tcp events.

(** ** Reading a run *)

(** The text received on a socket: its ['data'] chunks in order. *)
Fixpoint received (events : list SocketEvent) : string :=
  match events with
  | [] => EmptyString
  | OnData chunk :: rest => chunk ++ received rest
  | _ :: rest => received rest
  end.

(** No ['end'] and no ['error'] among the events. *)
Fixpoint still_open (events : list SocketEvent) : bool :=
  match events with
  | [] => true
  | OnEnd :: _ => false
  | OnError _ :: _ => false
  | _ :: rest => still_open rest
  end.

(** The calls of the caller's callback in a run. *)
Fixpoint outcomes (run : list Effect) : list (option Error * option string) :=
  match run with
  | [] => []
  | Done err value :: rest => (err, value) :: outcomes rest
  | _ :: rest => outcomes rest
  end.

(** What was written to the socket in a run. *)
Fixpoint written (run : list Effect) : list string :=
  match run with
  | [] => []
  | Write bytes :: rest => bytes :: written rest
  | _ :: rest => written rest
  end.

(** The texts the classifier was run on. *)
Fixpoint classified (run : list Effect) : list string :=
  match run with
  | [] => []
  | Classify raw :: rest => raw :: classified rest
  | _ :: rest => classified rest
  end.

(** How often the socket reported that it is connected. *)
Fixpoint connects (events : list SocketEvent) : nat :=
  match events with
  | [] => 0
  | OnConnect :: rest => S (connects rest)
  | _ :: rest => connects rest
  end.

(** ** Reading a response *)

(** The lines [ls], each followed by the terminator [sep]. *)
Fixpoint terminated (ls : list string) (sep : string) : string :=
  match ls with
  | [] => EmptyString
  | l :: rest => l ++ sep ++ terminated rest sep
  end.

(** The element of [data.split(...)] that [slice(0, -1)] leaves out. *)
Definition last_line (env : Env) (data : string) : string :=
  last (split data (line_terminator env)) EmptyString.

(** The lines of a response that are given to [every], put back as text. *)
Definition tested_part (env : Env) (data : string) : string :=
  terminated (lines env data) (line_terminator env).

(** A line passes when it is empty or holds [250] somewhere. *)
Definition passes (line : string) : Prop :=
  line = EmptyString \/ exists pre post, line = pre ++ "250" ++ post.

(** ** Sample runtimes *)

(** Node on a POSIX system, on Windows, and a browser build in which none of
    the Node modules is there; no [torrc] is found in any of them. *)
Definition node_posix : Env :=
  {| net_loaded := true; os_EOL := Some nl; fs_loaded := true;
     path_loaded := true; torrc_exists := fun _ => false |}.

Definition node_windows : Env :=
  {| net_loaded := true; os_EOL := Some (cr ++ nl); fs_loaded := true;
     path_loaded := true; torrc_exists := fun _ => false |}.

Definition browser : Env :=
  {| net_loaded := false; os_EOL := None; fs_loaded := false;
     path_loaded := false; torrc_exists := fun _ => false |}.

(** ** Reading a message *)

(** Some proper, non-empty end of [a] is also a start of [a]: two
    occurrences of [a] can then overlap. *)
Definition has_border (a : string) : bool :=
  existsb (fun k => prefix (drop k a) a) (seq 1 (String.length a - 1)).

(** Everything [getTorrcLocation] can return. *)
Definition torrc_locations : list string :=
  "torrc not available in browser environment"
  :: "torrc not found, specify with `tor --default-torrc <PATH>`"
  :: map (fun torPath => torPath ++ " ?") paths.

(** The message of an error that may be [null]. *)
Definition message_of (err : option Error) : string :=
  match err with
  | Some e => message e
  | None => EmptyString
  end.

(** ** Sample errors *)

(** The hint as [node_posix] words it, and an error whose message already
    holds it twice. *)
Definition sample_hint : string :=
  attachment NamedExports (getTorrcLocation node_posix).

Definition hinted_twice : Error :=
  {| message := "connect ECONNREFUSED" ++ sample_hint ++ sample_hint |}.

(** ** Letter case *)

(** [toLowerCase] on a code unit below 256: the capital letters of ASCII and
    of Latin-1 (all of [192 .. 222] but the multiplication sign) move up by
    32, every other unit stays. *)
Definition lower_unit (c : ascii) : ascii :=
  let n := nat_of_ascii c in
  if ((65 <=? n)%nat && (n <=? 90)%nat)
     || ((192 <=? n)%nat && (n <=? 222)%nat && negb (n =? 215)%nat)
  then ascii_of_nat (n + 32) else c.

(** [s.toLowerCase()]; a character of [s] is a code unit below 256. *)
Fixpoint toLowerCase (s : string) : string :=
  match s with
  | EmptyString => EmptyString
  | String c s' => String (lower_unit c) (toLowerCase s')
  end.

(** [toUpperCase] on an ASCII code unit.  The module applies it to its own
    six verbs only, which are ASCII; units from 128 on are left alone. *)
Definition upper_unit (c : ascii) : ascii :=
  let n := nat_of_ascii c in
  if (97 <=? n)%nat && (n <=? 122)%nat then ascii_of_nat (n - 32) else c.

(** [s.toUpperCase()] for ASCII text. *)
Fixpoint toUpperCase (s : string) : string :=
  match s with
  | EmptyString => EmptyString
  | String c s' => String (upper_unit c) (toUpperCase s')
  end.

(** [String(n)] and [`${n}`] for a whole number [n] (below [10^21] in size,
    from where on JavaScript writes an exponent). *)
Definition number_to_string (n : Z) : string :=
  DecimalString.NilZero.string_of_int (Z.to_int n).

(** ** The hint for a proxy that is not running *)

(** The line of this hint that carries the guide's address. *)
Definition tor_guide_line (rev : Revision) : string :=
  match rev with
  | DefaultExport => "https://github.com/talmobi/tor-request#requirements"
  | NamedExports => "https:"
  end.

(** The template literal [attachment] of [attachCommonErrorDetails]. *)
Definition tor_attachment (rev : Revision) : string :=
  nl ++
  nl ++
  nl ++
  " - Are you running `tor`?" ++ nl ++
  "See easy guide here (OSX, Linux, Windows):" ++ nl ++
  tor_guide_line rev ++ nl ++
  nl ++
  " Quickfixes:" ++ nl ++
  "  OSX: `brew install tor && tor`         # installs and runs tor" ++ nl ++
  "  Debian/Ubuntu: `apt-get install tor`   # should auto run as daemon after install" ++ nl ++
  "  Windows: download the Windows Expert Bundle from `https://www.torproject.org/download/tor/`" ++ nl ++
  "           Unzip and run tor.exe inside the Tor/ directory." ++ nl.

(** The condition under which [attachCommonErrorDetails] goes on. *)
Definition proxy_unreachable (msg : string) : bool :=
  includes msg "ECONNREFUSED"
  || (toLowerCase msg =? "socket closed")%string.

(** [attachCommonErrorDetails(err)]; as for the ControlPort hint the result
    is the error as it stands after the call. *)
Definition attachCommonErrorDetails (rev : Revision) (err : option Error)
  : option Error :=
  match err with
  | None => None
  | Some e =>
      if proxy_unreachable (message e)
      then
        let attachment := tor_attachment rev in
        if negb (includes (message e) attachment)
        then Some {| message := message e ++ attachment |}
        else Some e
      else Some e
  end.

(** ** Requests through the proxy *)

(** [createAgent(url)], the agent given by the address it is created with.
    [dps] is the value of [_defaultProxySettings], as for
    [createProxySettings]. *)
Definition createAgent (dps : option ProxySettings) (url : string) : string :=
  let ps := createProxySettings dps None None None in
  let protocol :=
    if (number_to_string (type ps) =? "4")%string
    then "socks4://" else "socks://" in
  let proxyUri :=
    protocol ++ ipaddress ps ++ ":" ++ number_to_string (port ps) in
  proxyUri.

Section Fetch.
(** Headers, request bodies, abort signals and response data are whatever
    the caller and [axios] make of them. *)
Variables (Hdr Bdy Sig Dat : Type).

(** [new Headers(h).forEach(...)] collected into an object, which is what the
    current revision hands on; the earlier one hands on [h] itself. *)
Variable headersObj : Hdr -> Hdr.

(** The fields of [RequestInit] the module reads. *)
Record RequestInit : Type := {
  init_method : option string;
  init_headers : option Hdr;
  init_body : option Bdy;
  init_signal : option Sig
}.

(** [input]: an address, or a [Request], of which only [url] is read. *)
Inductive RequestInfo : Type :=
| Address (url : string)
| Request (url : string).

(** The object [params] given to [axios]. *)
Record Params : Type := {
  url : string;
  method : string;
  headers : option Hdr;
  data : option Bdy;
  signal : option Sig;
  httpAgent : string
}.

(** The [Response] the module builds. *)
Record Response : Type := {
  body : Dat;
  status : Z;
  statusText : string
}.

(** How the promise of [axios(params)] settles; [cancelled] is the answer
    of [axios.isCancel] for what it was rejected with. *)
Inductive AxiosResult : Type :=
| Fulfilled (res_data : Dat) (res_status : Z) (res_statusText : string)
| Rejected (cancelled : bool) (err : Error).

(** How the promise of [torfetch] settles. *)
Inductive Settled : Type :=
| Resolved (response : Response)
| Thrown (err : Error).

Variable rev : Revision.
Variable dps : option ProxySettings.
Variable axios : Params -> AxiosResult.

(** The field [f] of an [init] that may be missing: [init?.f]. *)
Definition opt_field {A : Type} (init : option RequestInit)
    (f : RequestInit -> option A) : option A :=
  match init with
  | Some i => f i
  | None => None
  end.

(** The object [params] of [torfetch(input, init)]. *)
Definition params (input : RequestInfo) (init : option RequestInit) : Params :=
  let url := match input with Address u => u | Request u => u end in
  {| url := url;
     method := or_default truthy_string (opt_field init init_method) "GET";
     headers :=
       match rev with
       | DefaultExport => opt_field init init_headers
       | NamedExports => option_map headersObj (opt_field init init_headers)
       end;
     data := opt_field init init_body;
     signal := opt_field init init_signal;
     httpAgent := createAgent dps url |}.

(** What [torfetch] does once [axios(params)] has settled: the rest of its
    [try] block and its [catch] block.  The constructor of [Response] is
    taken not to throw. *)
Definition settle (r : AxiosResult) : Settled :=
  match r with
  | Fulfilled res_data res_status res_statusText =>
      Resolved {| body := res_data;
                  status := res_status;
                  statusText := res_statusText |}
  | Rejected cancelled err =>
      if cancelled
      then Thrown {| message := "Request was aborted" |}
      else Thrown (or_default (fun _ => true)
                     (attachCommonErrorDetails rev (Some err)) err)
  end.

(** [torfetch(input, init)]. *)
Definition torfetch (input : RequestInfo) (init : option RequestInit)
  : Settled :=
  settle (axios (params input init)).

(** [{ ...options, method }]. *)
Definition with_method (options : option RequestInit) (m : string)
  : RequestInit :=
  {| init_method := Some m;
     init_headers := opt_field options init_headers;
     init_body := opt_field options init_body;
     init_signal := opt_field options init_signal |}.

(** [verbFunc(verb)]. *)
Definition verbFunc (verb : string) (uri : string)
    (options : option RequestInit) : Settled :=
  let method := if (verb =? "del")%string then "DELETE"
                else toUpperCase verb in
  torfetch (Address uri) (Some (with_method options method)).

End Fetch.

Arguments init_method {Hdr Bdy Sig}.
Arguments init_headers {Hdr Bdy Sig}.
Arguments init_body {Hdr Bdy Sig}.
Arguments init_signal {Hdr Bdy Sig}.
Arguments url {Hdr Bdy Sig}.
Arguments method {Hdr Bdy Sig}.
Arguments headers {Hdr Bdy Sig}.
Arguments data {Hdr Bdy Sig}.
Arguments signal {Hdr Bdy Sig}.
Arguments httpAgent {Hdr Bdy Sig}.
Arguments Fulfilled {Dat}.
Arguments Rejected {Dat}.
Arguments Resolved {Dat}.
Arguments Thrown {Dat}.
Arguments opt_field {Hdr Bdy Sig A}.
Arguments params {Hdr Bdy Sig}.
Arguments settle {Dat}.
Arguments torfetch {Hdr Bdy Sig Dat}.
Arguments with_method {Hdr Bdy Sig}.
Arguments verbFunc {Hdr Bdy Sig Dat}.

(** The verbs for which the module makes a helper: [torfetch.get], ...,
    [torfetch.del]. *)
Definition verbs : list string :=
  ["get"; "head"; "post"; "put"; "patch"; "del"].

(** ** Counting events *)

(** How often the socket reported ['error'], and how often ['end']. *)
Fixpoint errors (events : list SocketEvent) : nat :=
  match events with
  | [] => 0
  | OnError _ :: rest => Datatypes.S (errors rest)
  | _ :: rest => errors rest
  end.

Fixpoint ends (events : list SocketEvent) : nat :=
  match events with
  | [] => 0
  | OnEnd :: rest => Datatypes.S (ends rest)
  | _ :: rest => ends rest
  end.

(** Node on a system whose only [torrc] is the sample file in [/etc/tor]. *)
Definition node_with_sample : Env :=
  {| net_loaded := true; os_EOL := Some nl; fs_loaded := true;
     path_loaded := true;
     torrc_exists := fun p => (p =? "/etc/tor/torrc.sample")%string |}.

(** All three modules that [getTorrcLocation] asks for are loaded. *)
Definition can_probe (env : Env) : bool :=
  path_loaded env && fs_loaded env
  && match os_EOL env with Some _ => true | None => false end.

(** An outcome is the success message alone, or an error alone that holds
    the question of the hint. *)
Definition well_formed (o : option Error * option string) : Prop :=
  o = (None, Some renewed) \/
  exists e, o = (Some e, None) /\ includes (message e) hint_question = true.

(* ================================================================== *)
(** * Facts about the primitives *)

Section StringFacts.

Lemma append_nil_r (s : string) : s ++ EmptyString = s.
Proof. induction s as [|c s IH]; simpl; [reflexivity | now rewrite IH]. Qed.

Lemma append_assoc (a b c : string) : (a ++ b) ++ c = a ++ (b ++ c).
Proof. induction a as [|x a IH]; simpl; [reflexivity | now rewrite IH]. Qed.

Lemma length_append (a b : string) :
  String.length (a ++ b) = String.length a + String.length b.
Proof. induction a as [|x a IH]; simpl; [reflexivity | now rewrite IH]. Qed.

Lemma drop_append (a b : string) : drop (String.length a) (a ++ b) = b.
Proof. induction a as [|x a IH]; simpl; [now destruct b | exact IH]. Qed.

(** ** [prefix] *)

Lemma prefix_nil (s : string) : prefix EmptyString s = true.
Proof. now destruct s. Qed.

Lemma prefix_cons (c d : ascii) (sub s : string) :
  prefix (String c sub) (String d s) = true <-> c = d /\ prefix sub s = true.
Proof.
  simpl. destruct (ascii_dec c d) as [->|N]; split.
  - intros H; now split.
  - now intros [_ H].
  - discriminate.
  - intros [E _]; contradiction.
Qed.

Lemma prefix_iff (sub s : string) :
  prefix sub s = true <-> exists r, s = sub ++ r.
Proof.
  revert s. induction sub as [|c sub IH]; intros s.
  - split; [intros _; now exists s | now destruct s].
  - destruct s as [|d s].
    + split; [discriminate | intros [r H]; discriminate].
    + rewrite prefix_cons, IH. split.
      * intros [-> [r ->]]. now exists r.
      * intros [r H]. simpl in H. injection H as -> ->. split; eauto.
Qed.

Lemma prefix_append (sub r : string) : prefix sub (sub ++ r) = true.
Proof. apply prefix_iff. now exists r. Qed.

Lemma prefix_refl (s : string) : prefix s s = true.
Proof. apply prefix_iff. exists EmptyString. now rewrite append_nil_r. Qed.

Lemma prefix_length (sub s : string) :
  prefix sub s = true -> String.length sub <= String.length s.
Proof.
  intros H. apply prefix_iff in H as [r ->]. rewrite length_append. lia.
Qed.

(** Whether [sub] starts [s] is settled by the first [length sub]
    characters of [s]. *)
Lemma prefix_append_long (sub s r : string) :
  String.length sub <= String.length s ->
  prefix sub (s ++ r) = prefix sub s.
Proof.
  revert s. induction sub as [|c sub IH]; intros s L.
  - now rewrite !prefix_nil.
  - destruct s as [|d s]; simpl in L; [lia|].
    simpl. destruct (ascii_dec c d); [apply IH; lia | reflexivity].
Qed.

Lemma prefix_append_true (sub s r : string) :
  prefix sub s = true -> prefix sub (s ++ r) = true.
Proof.
  intros H. rewrite prefix_append_long; [exact H | now apply prefix_length].
Qed.

(** ** [includes] *)

Lemma includes_nil (sub : string) :
  includes EmptyString sub = prefix sub EmptyString.
Proof. simpl. apply orb_false_r. Qed.

Lemma includes_cons (c : ascii) (s sub : string) :
  includes (String c s) sub = prefix sub (String c s) || includes s sub.
Proof. reflexivity. Qed.

Lemma includes_iff (s sub : string) :
  includes s sub = true <-> exists pre post, s = pre ++ sub ++ post.
Proof.
  induction s as [|c s IH].
  - rewrite includes_nil, prefix_iff. split.
    + intros [r H]. now exists EmptyString, r.
    + intros [pre [post H]]. destruct pre; [now exists post | discriminate].
  - rewrite includes_cons, orb_true_iff, prefix_iff, IH. split.
    + intros [[r H] | [pre [post H]]].
      * now exists EmptyString, r.
      * exists (String c pre), post. simpl. now rewrite H.
    + intros [pre [post H]]. destruct pre as [|d pre]; simpl in H.
      * left. now exists post.
      * right. injection H as _ H. now exists pre, post.
Qed.

Lemma includes_append_r (m sub : string) : includes (m ++ sub) sub = true.
Proof.
  apply includes_iff. exists m, EmptyString. now rewrite append_nil_r.
Qed.

Lemma includes_trans (s mid sub : string) :
  includes s mid = true -> includes mid sub = true -> includes s sub = true.
Proof.
  rewrite !includes_iff. intros [p1 [q1 ->]] [p2 [q2 ->]].
  exists (p1 ++ p2), (q2 ++ q1). now rewrite !append_assoc.
Qed.

Lemma includes_short (s sub : string) :
  String.length s < String.length sub -> includes s sub = false.
Proof.
  intros L. destruct (includes s sub) eqn:E; [|reflexivity].
  apply includes_iff in E as [p [q ->]].
  rewrite !length_append in L. lia.
Qed.

End StringFacts.

Section SplitFacts.

Lemma drop_append_long (n : nat) (s r : string) :
  n <= String.length s -> drop n (s ++ r) = drop n s ++ r.
Proof.
  revert s. induction n as [|n IH]; intros s L; [reflexivity|].
  destruct s as [|c s]; simpl in *; [lia | apply IH; lia].
Qed.

Lemma prefix_drop (sep s : string) :
  prefix sep s = true -> s = EmptyString ++ sep ++ drop (String.length sep) s.
Proof.
  intros P. apply prefix_iff in P as [r ->]. now rewrite drop_append.
Qed.

(** ** [cut]: the equations of its three cases *)

Lemma cut_hit (sep s : string) :
  prefix sep s = true ->
  cut sep s = Some (EmptyString, drop (String.length sep) s).
Proof. intros H. destruct s; cbn [cut]; now rewrite H. Qed.

Lemma cut_miss_nil (sep : string) :
  prefix sep EmptyString = false -> cut sep EmptyString = None.
Proof. intros H. cbn [cut]. now rewrite H. Qed.

Lemma cut_miss_cons (sep : string) (c : ascii) (s : string) :
  prefix sep (String c s) = false ->
  cut sep (String c s) =
    match cut sep s with
    | Some (b, a) => Some (String c b, a)
    | None => None
    end.
Proof. intros H. cbn [cut]. now rewrite H. Qed.

(** A cut takes the string apart around the separator. *)
Lemma cut_spec (sep s b a : string) :
  cut sep s = Some (b, a) -> s = b ++ sep ++ a.
Proof.
  revert b. induction s as [|c s IH]; intros b H.
  - destruct (prefix sep EmptyString) eqn:P.
    + rewrite (cut_hit _ _ P) in H. injection H as <- <-.
      now apply prefix_drop.
    + now rewrite (cut_miss_nil _ P) in H.
  - destruct (prefix sep (String c s)) eqn:P.
    + rewrite (cut_hit _ _ P) in H. injection H as <- <-.
      now apply prefix_drop.
    + rewrite (cut_miss_cons _ _ _ P) in H.
      destruct (cut sep s) as [[b' a']|]; [|discriminate].
      injection H as <- <-. simpl. now rewrite <- (IH b' eq_refl).
Qed.

(** There is nothing to cut exactly when the separator does not occur. *)
Lemma cut_none_iff (sep s : string) :
  cut sep s = None <-> includes s sep = false.
Proof.
  induction s as [|c s IH].
  - rewrite includes_nil. destruct (prefix sep EmptyString) eqn:P.
    + rewrite (cut_hit _ _ P). split; discriminate.
    + rewrite (cut_miss_nil _ P). tauto.
  - rewrite includes_cons. destruct (prefix sep (String c s)) eqn:P.
    + rewrite (cut_hit _ _ P). split; discriminate.
    + rewrite (cut_miss_cons _ _ _ P). simpl. rewrite <- IH.
      destruct (cut sep s) as [[b a]|]; split; congruence.
Qed.

(** The text before the cut holds no separator. *)
Lemma cut_before_free (sep s b a : string) :
  sep <> EmptyString -> cut sep s = Some (b, a) -> includes b sep = false.
Proof.
  intros NE. revert b. induction s as [|c s IH]; intros b H.
  - destruct (prefix sep EmptyString) eqn:P.
    + destruct sep; [contradiction | discriminate].
    + now rewrite (cut_miss_nil _ P) in H.
  - destruct (prefix sep (String c s)) eqn:P.
    + rewrite (cut_hit _ _ P) in H. injection H as <- <-.
      rewrite includes_nil. destruct sep; [contradiction | reflexivity].
    + pose proof H as H0. rewrite (cut_miss_cons _ _ _ P) in H.
      destruct (cut sep s) as [[b' a']|] eqn:C; [|discriminate].
      injection H as <- <-. rewrite includes_cons, (IH b' eq_refl), orb_false_r.
      destruct (prefix sep (String c b')) eqn:Q; [|reflexivity].
      apply cut_spec in H0. rewrite H0 in P.
      change (String c b' ++ sep ++ a') with ((String c b') ++ sep ++ a') in P.
      now rewrite (prefix_append_true _ _ _ Q) in P.
Qed.

Lemma cut_shorter (sep s b a : string) :
  sep <> EmptyString -> cut sep s = Some (b, a) ->
  String.length a < String.length s.
Proof.
  intros NE H. apply cut_spec in H. subst s. rewrite !length_append.
  destruct sep; [contradiction | simpl; lia].
Qed.

(** Where the leftmost separator is found depends only on the text up to
    its end: what follows may be replaced. *)
Lemma cut_stable (sep s b a a' : string) :
  cut sep s = Some (b, a) -> cut sep (b ++ sep ++ a') = Some (b, a').
Proof.
  revert b. induction s as [|c s IH]; intros b H.
  - destruct (prefix sep EmptyString) eqn:P.
    + rewrite (cut_hit _ _ P) in H. injection H as <- <-. simpl.
      now rewrite (cut_hit _ _ (prefix_append sep a')), drop_append.
    + now rewrite (cut_miss_nil _ P) in H.
  - destruct (prefix sep (String c s)) eqn:P.
    + rewrite (cut_hit _ _ P) in H. injection H as <- <-. simpl.
      now rewrite (cut_hit _ _ (prefix_append sep a')), drop_append.
    + pose proof H as H0. rewrite (cut_miss_cons _ _ _ P) in H.
      destruct (cut sep s) as [[b' a0]|] eqn:C; [|discriminate].
      injection H as <- <-.
      apply cut_spec in H0. rewrite H0 in P.
      assert (L : String.length sep <= String.length (String c b' ++ sep)).
      { rewrite length_append. lia. }
      rewrite <- append_assoc, (prefix_append_long _ _ a0 L) in P.
      change (String c b' ++ sep ++ a') with (String c (b' ++ sep ++ a')).
      rewrite cut_miss_cons.
      * now rewrite (IH b' eq_refl).
      * change (String c (b' ++ sep ++ a')) with (String c b' ++ sep ++ a').
        now rewrite <- append_assoc, (prefix_append_long _ _ a' L).
Qed.

(** ** [split] *)

Lemma split_fuel_any (sep : string) (n m : nat) (s : string) :
  sep <> EmptyString ->
  String.length s <= n -> String.length s <= m ->
  split_fuel n sep s = split_fuel m sep s.
Proof.
  intros NE. revert m s. induction n as [|n IH]; intros m s Ln Lm.
  - destruct s; [|simpl in Ln; lia]. destruct m; [reflexivity|].
    cbn [split_fuel]. rewrite cut_miss_nil; [reflexivity|].
    destruct sep; [contradiction | reflexivity].
  - destruct m as [|m].
    + destruct s; [|simpl in Lm; lia].
      cbn [split_fuel]. rewrite cut_miss_nil; [reflexivity|].
      destruct sep; [contradiction | reflexivity].
    + simpl. destruct (cut sep s) as [[b a]|] eqn:C; [|reflexivity].
      pose proof (cut_shorter _ _ _ _ NE C).
      f_equal. apply IH; lia.
Qed.

(** With [length s] rounds the scan never stops short: more fuel gives
    the same pieces. *)
Lemma split_fuel_enough (sep : string) (n : nat) (s : string) :
  sep <> EmptyString -> String.length s <= n ->
  split_fuel n sep s = split s sep.
Proof.
  intros NE L. unfold split. destruct sep; [contradiction|].
  apply split_fuel_any; [discriminate | lia | lia].
Qed.

(** The equation of the scan. *)
Lemma split_unfold (s sep : string) :
  sep <> EmptyString ->
  split s sep =
    match cut sep s with
    | None => [s]
    | Some (b, a) => b :: split a sep
    end.
Proof.
  intros NE. rewrite <- (split_fuel_enough sep (S (String.length s)) s NE) by lia.
  simpl. destruct (cut sep s) as [[b a]|] eqn:C; [|reflexivity].
  pose proof (cut_shorter _ _ _ _ NE C).
  f_equal. apply split_fuel_enough; [exact NE | lia].
Qed.

(** Induction on the pieces of a string. *)
Lemma split_ind (sep : string) (NE : sep <> EmptyString)
    (P : string -> Prop) :
  (forall s, cut sep s = None -> P s) ->
  (forall s b a, cut sep s = Some (b, a) -> P a -> P s) ->
  forall s, P s.
Proof.
  intros Hnone Hsome s.
  remember (String.length s) as n eqn:En.
  revert s En. induction n as [n IH] using lt_wf_ind. intros s ->.
  destruct (cut sep s) as [[b a]|] eqn:C.
  - apply (Hsome s b a C).
    apply (IH (String.length a)); [now apply (cut_shorter sep s b a) | reflexivity].
  - now apply Hnone.
Qed.

Lemma split_not_nil (s sep : string) : sep <> EmptyString -> split s sep <> [].
Proof.
  intros NE. rewrite split_unfold by exact NE.
  destruct (cut sep s) as [[b a]|]; discriminate.
Qed.

(** Joining the pieces with the separator gives the string back. *)
Lemma join_split (s sep : string) :
  sep <> EmptyString -> join (split s sep) sep = s.
Proof.
  intros NE. induction s as [s C | s b a C IH] using (split_ind sep NE);
    rewrite split_unfold, C by exact NE.
  - reflexivity.
  - unfold join in *. simpl.
    destruct (split a sep) eqn:E; [now apply split_not_nil in E|].
    rewrite IH. symmetry. now apply cut_spec.
Qed.

(** No piece holds the separator. *)
Lemma split_pieces_free (s sep : string) :
  sep <> EmptyString -> Forall (fun p => includes p sep = false) (split s sep).
Proof.
  intros NE. induction s as [s C | s b a C IH] using (split_ind sep NE);
    rewrite split_unfold, C by exact NE.
  - constructor; [now apply cut_none_iff | constructor].
  - constructor; [now apply (cut_before_free sep s b a) | exact IH].
Qed.

Lemma split_free (s sep : string) :
  sep <> EmptyString -> includes s sep = false -> split s sep = [s].
Proof.
  intros NE F. rewrite split_unfold by exact NE.
  apply cut_none_iff in F. now rewrite F.
Qed.

(** ** [slice] and [every] *)

Lemma removelast_cons {A : Type} (x : A) (l : list A) :
  l <> [] -> removelast (x :: l) = x :: removelast l.
Proof. now destruct l. Qed.

Lemma last_cons {A : Type} (x d : A) (l : list A) :
  l <> [] -> last (x :: l) d = last l d.
Proof. now destruct l. Qed.

Lemma slice_0_m1 {A : Type} (l : list A) : slice l 0 (-1) = removelast l.
Proof.
  unfold slice, rel_index.
  change (0 <? 0)%Z with false. change (-1 <? 0)%Z with true. cbv iota.
  replace (Z.min 0 (Z.of_nat (List.length l))) with 0%Z by lia.
  change (Z.to_nat 0) with 0. cbn [skipn].
  rewrite removelast_firstn_len. f_equal. lia.
Qed.

Lemma every_Forall {A : Type} (l : list A) (p : A -> bool) :
  every l p = true <-> Forall (fun x => p x = true) l.
Proof. unfold every. now rewrite forallb_forall, Forall_forall. Qed.

End SplitFacts.

(* ================================================================== *)
(** * The response classifier *)

Section Classifier.
Variable env : Env.

Lemma line_terminator_not_nil : line_terminator env <> EmptyString.
Proof.
  unfold line_terminator, or_default.
  destruct (os_EOL env) as [[|c s]|]; discriminate.
Qed.

Lemma lines_removelast (data : string) :
  lines env data = removelast (split data (line_terminator env)).
Proof. apply slice_0_m1. Qed.

Lemma passes_iff (val : string) :
  (String.length val <=? 0)%nat || includes val "250" = true <-> passes val.
Proof.
  unfold passes. rewrite orb_true_iff, Nat.leb_le, includes_iff.
  destruct val; simpl; split; intros [H|H]; auto; try lia; discriminate.
Qed.

(** A response is its tested lines, terminated, followed by the line that
    is left out. *)
Lemma response_parts (data : string) :
  data = tested_part env data ++ last_line env data.
Proof.
  unfold tested_part, last_line. rewrite lines_removelast.
  pose proof line_terminator_not_nil as NE.
  induction data as [s C | s b a C IH]
    using (split_ind (line_terminator env) NE);
    rewrite split_unfold, C by exact NE.
  - reflexivity.
  - pose proof (split_not_nil a _ NE) as N.
    rewrite (removelast_cons _ _ N), (last_cons _ _ _ N).
    cbn [terminated]. rewrite !append_assoc, <- IH.
    now apply cut_spec.
Qed.

(** Whatever stands in the place of the last line, the scan finds the
    same lines before it. *)
Lemma split_replace_last (data l' : string) :
  includes l' (line_terminator env) = false ->
  split (tested_part env data ++ l') (line_terminator env)
  = (lines env data ++ [l'])%list.
Proof.
  intros F. unfold tested_part. rewrite lines_removelast.
  pose proof line_terminator_not_nil as NE.
  induction data as [s C | s b a C IH]
    using (split_ind (line_terminator env) NE);
    rewrite (split_unfold s), C by exact NE.
  - simpl. now apply split_free.
  - pose proof (split_not_nil a _ NE) as N.
    rewrite (removelast_cons _ _ N).
    cbn [terminated]. rewrite !append_assoc.
    rewrite split_unfold by exact NE.
    rewrite (cut_stable _ _ _ _
               (terminated (removelast (split a (line_terminator env)))
                  (line_terminator env) ++ l') C).
    now rewrite IH.
Qed.

End Classifier.

(** C1.  The classifier: the response is split at the line terminator, the
    last element is dropped, and the result is [true] exactly when every
    remaining line is empty or holds [250] somewhere in it (at the start or
    anywhere else).  With no line left the condition holds of none and the
    result is [true]. *)
Theorem success_iff_every_line_passes (env : Env) (raw : string) :
  lines env raw = removelast (split raw (line_terminator env)) /\
  (success env raw = true <-> Forall passes (lines env raw)).
Proof.
  split; [apply lines_removelast|].
  unfold success. rewrite every_Forall.
  split; apply Forall_impl; intros l; apply passes_iff.
Qed.

(** C6.  The empty response is classified as a success: its split is the
    single empty string, nothing remains once the last element is dropped,
    and [every] over no line is [true]. *)
Theorem success_of_empty_response (env : Env) :
  split EmptyString (line_terminator env) = [EmptyString] /\
  lines env EmptyString = [] /\
  success env EmptyString = true.
Proof.
  assert (S : split EmptyString (line_terminator env) = [EmptyString]).
  { apply split_free; [apply line_terminator_not_nil|].
    rewrite includes_nil.
    pose proof (line_terminator_not_nil env) as NE.
    destruct (line_terminator env); [contradiction | reflexivity]. }
  assert (L : lines env EmptyString = []).
  { now rewrite lines_removelast, S. }
  repeat split; [exact S | exact L |].
  unfold success. now rewrite L.
Qed.

Lemma last_line_free (env : Env) (raw : string) :
  includes (last_line env raw) (line_terminator env) = false.
Proof.
  unfold last_line.
  pose proof (split_pieces_free raw _ (line_terminator_not_nil env)) as F.
  pose proof (split_not_nil raw _ (line_terminator_not_nil env)) as N.
  rewrite Forall_forall in F. apply F.
  destruct (split raw (line_terminator env)) as [|x xs]; [contradiction|].
  clear. revert x. induction xs as [|y ys IH]; intros x.
  - now left.
  - right. apply (IH y).
Qed.

(** C5.  The element that [slice(0, -1)] drops is the text after the last
    terminator, that is the last line when the response does not end with
    the terminator.  The response is the tested lines followed by that text;
    putting any other unterminated text in its place changes neither the
    lines tested nor the result, and a response that is one unterminated
    line has no line tested and is a success whatever it says. *)
Theorem success_ignores_last_line (env : Env) (raw other : string) :
  includes other (line_terminator env) = false ->
  raw = tested_part env raw ++ last_line env raw /\
  includes (last_line env raw) (line_terminator env) = false /\
  lines env (tested_part env raw ++ other) = lines env raw /\
  success env (tested_part env raw ++ other) = success env raw /\
  lines env other = [] /\
  success env other = true.
Proof.
  intros F.
  assert (L : lines env (tested_part env raw ++ other) = lines env raw).
  { rewrite (lines_removelast env (_ ++ _)), split_replace_last by exact F.
    apply removelast_last. }
  assert (L1 : lines env other = []).
  { rewrite lines_removelast, split_free;
      [reflexivity | apply line_terminator_not_nil | exact F]. }
  repeat split.
  - apply response_parts.
  - apply last_line_free.
  - exact L.
  - unfold success. now rewrite L.
  - exact L1.
  - unfold success. now rewrite L1.
Qed.

Lemma success_ignores_last_line_witness :
  includes "515 Something went wrong" (line_terminator node_posix) = false /\
  success node_posix ("250 OK" ++ nl ++ "515 Something went wrong")
  = success node_posix ("250 OK" ++ nl ++ "250 closing connection") /\
  success node_posix "515 Something went wrong" = true.
Proof.
  split; [reflexivity|].
  pose proof (success_ignores_last_line node_posix
                ("250 OK" ++ nl ++ "250 closing connection")
                "515 Something went wrong" eq_refl) as [_ [_ [_ [H [_ T]]]]].
  split; [exact H | exact T].
Defined.

(* ================================================================== *)
(** * Runs of [send] and [renewTorSession] *)

Section Runs.

Lemma written_app (a b : list Effect) :
  written (a ++ b)%list = (written a ++ written b)%list.
Proof.
  induction a as [|[] a IH]; simpl; try exact IH; [reflexivity | now rewrite IH].
Qed.

Lemma outcomes_app (a b : list Effect) :
  outcomes (a ++ b)%list = (outcomes a ++ outcomes b)%list.
Proof.
  induction a as [|[] a IH]; simpl; try exact IH; [reflexivity | now rewrite IH].
Qed.

Lemma classified_app (a b : list Effect) :
  classified (a ++ b)%list = (classified a ++ classified b)%list.
Proof.
  induction a as [|[] a IH]; simpl; try exact IH; [reflexivity | now rewrite IH].
Qed.

(** The callback of [renewTorSession] writes nothing to the socket. *)
Lemma renew_callback_writes_nothing rev env err value :
  written (renew_callback rev env report err value) = [].
Proof.
  unfold renew_callback, report.
  destruct err; [reflexivity|]. destruct value as [raw|].
  - simpl. now destruct (success env raw).
  - now destruct rev.
Qed.

(** Every connect event makes the listener write the whole batch once;
    nothing else is written. *)
Lemma written_listen rev env commands (done : Callback) data events :
  (forall err value, written (done err value) = []) ->
  written (listen rev env commands done data events)
  = repeat (join commands nl ++ nl) (connects events).
Proof.
  intros Q. revert data.
  induction events as [|[|err|chunk|] rest IH]; intros data; simpl.
  - reflexivity.
  - now rewrite IH.
  - unfold on_error. now rewrite written_app, Q, IH.
  - apply IH.
  - unfold on_end. now rewrite written_app, Q, IH.
Qed.

(** What [send] reports to its caller does not depend on the commands. *)
Lemma outcomes_listen rev env commands commands' done data events :
  outcomes (listen rev env commands done data events)
  = outcomes (listen rev env commands' done data events).
Proof.
  revert data.
  induction events as [|[|err|chunk|] rest IH]; intros data; simpl.
  - reflexivity.
  - apply IH.
  - now rewrite !outcomes_app, IH.
  - apply IH.
  - now rewrite !outcomes_app, IH.
Qed.

End Runs.

(** C4.  The batch of [renewTorSession] is [authenticate], [signal newnym]
    and [quit], with the password of [TorControlPort] (the empty string when
    it is unset) between double quotes.  Each time the socket connects the
    listener writes the three lines joined by a newline with one more newline
    at the end, in one write, and nothing else is ever written. *)
Theorem renewTorSession_writes_batch (rev : Revision) (env : Env)
    (tcp : TorControlPortType) (events : list SocketEvent) :
  let p := match password tcp with Some p => p | None => EmptyString end in
  let bytes := "authenticate " ++ dquote ++ p ++ dquote ++ nl ++
               "signal newnym" ++ nl ++ "quit" ++ nl in
  join ["authenticate " ++ dquote ++ p ++ dquote; "signal newnym"; "quit"] nl
    ++ nl = bytes /\
  written (renewTorSession rev env tcp report events)
  = (if net_loaded env then repeat bytes (connects events) else []) /\
  written (renewTorSession rev env tcp report [OnConnect])
  = (if net_loaded env then [bytes] else []).
Proof.
  intros p bytes.
  assert (P : or_default truthy_string (password tcp) EmptyString = p).
  { subst p. unfold or_default. now destruct (password tcp) as [[|c q]|]. }
  assert (J : join ["authenticate " ++ dquote ++ p ++ dquote;
                    "signal newnym"; "quit"] nl ++ nl = bytes).
  { subst bytes. unfold join. cbn [String.concat].
    now rewrite !append_assoc. }
  assert (W : forall evs,
             written (renewTorSession rev env tcp report evs)
             = if net_loaded env then repeat bytes (connects evs) else []).
  { intros evs. unfold renewTorSession, send. rewrite P.
    destruct (net_loaded env); cbn [negb].
    - cbn [written]. rewrite written_listen
        by apply renew_callback_writes_nothing.
      now rewrite J.
    - apply renew_callback_writes_nothing. }
  repeat split; [exact J | apply W | apply (W [OnConnect])].
Qed.

(** C10.  [send] does not look at how many commands it is given.  With the
    empty list it reports to its caller exactly what it reports with any
    other list over the same events, so no error comes from the list being
    empty, and what it writes when the socket connects is the single
    newline. *)
Theorem send_empty_batch (rev : Revision) (env : Env)
    (tcp : TorControlPortType) (events : list SocketEvent)
    (commands : list string) :
  join [] nl ++ nl = nl /\
  written (send rev env [] report tcp events)
  = (if net_loaded env then repeat nl (connects events) else []) /\
  outcomes (send rev env [] report tcp events)
  = outcomes (send rev env commands report tcp events) /\
  send rev node_posix [] report tcp [OnConnect; OnEnd]
  = [Connect (host tcp) (control_port tcp); Write nl;
     Done None (Some EmptyString)].
Proof.
  repeat split.
  - unfold send. destruct (net_loaded env); cbn [negb]; [|reflexivity].
    cbn [written]. now rewrite written_listen.
  - unfold send. destruct (net_loaded env); cbn [negb]; [|reflexivity].
    cbn [outcomes]. apply outcomes_listen.
Qed.

(* ================================================================== *)
(** * The hint *)

Section Hint.
Variables (rev : Revision) (env : Env).

Lemma attachment_has_question (location : string) :
  includes (attachment rev location) hint_question = true.
Proof.
  apply includes_iff. unfold attachment. now eexists " - ", _.
Qed.

(** After the call the message is the old one, possibly with the hint
    added at its end, and it holds the hint. *)
Lemma attach_some (e : Error) :
  exists e' suffix,
    attachCommonControlPortErrorDetails rev env (Some e) = Some e' /\
    message e' = message e ++ suffix /\
    includes (message e') (attachment rev (getTorrcLocation env)) = true.
Proof.
  unfold attachCommonControlPortErrorDetails.
  destruct (includes (message e) (attachment rev (getTorrcLocation env)))
    eqn:I; cbn [negb].
  - exists e, EmptyString. now rewrite append_nil_r.
  - eexists _, _. split; [reflexivity|]. split; [reflexivity|].
    apply includes_append_r.
Qed.

Lemma attach_some_question (e : Error) :
  exists e' suffix,
    attachCommonControlPortErrorDetails rev env (Some e) = Some e' /\
    message e' = message e ++ suffix /\
    includes (message e') hint_question = true.
Proof.
  destruct (attach_some e) as [e' [suffix [A [M I]]]].
  exists e', suffix. repeat split; [exact A | exact M |].
  exact (includes_trans _ _ _ I (attachment_has_question _)).
Qed.

End Hint.

(* ================================================================== *)
(** * Outcomes of a renewal *)

Section Outcomes.
Variables (rev : Revision) (env : Env).

(** While neither ['end'] nor ['error'] has come, the listeners only write
    and accumulate. *)
Lemma listen_still_open commands done data pre rest :
  still_open pre = true ->
  listen rev env commands done data (pre ++ rest)%list
  = (repeat (Write (join commands nl ++ nl)) (connects pre)
     ++ listen rev env commands done (data ++ received pre) rest)%list.
Proof.
  revert data.
  induction pre as [|[|err|chunk|] pre IH]; intros data O;
    simpl in O; try discriminate.
  - simpl. now rewrite append_nil_r.
  - simpl. now rewrite IH.
  - simpl. rewrite IH by exact O. unfold on_data.
    now rewrite append_assoc.
Qed.

Lemma outcomes_writes (bytes : string) (n : nat) (run : list Effect) :
  outcomes (repeat (Write bytes) n ++ run)%list = outcomes run.
Proof. induction n as [|n IH]; [reflexivity | exact IH]. Qed.

Lemma classified_writes (bytes : string) (n : nat) (run : list Effect) :
  classified (repeat (Write bytes) n ++ run)%list = classified run.
Proof. induction n as [|n IH]; [reflexivity | exact IH]. Qed.

(** The outcomes of a renewal whose socket is closed by the peer. *)
Lemma outcomes_renew_end tcp pre :
  net_loaded env = true -> still_open pre = true ->
  outcomes (renewTorSession rev env tcp report (pre ++ [OnEnd]))
  = outcomes (renew_callback rev env report None (Some (received pre))).
Proof.
  intros N O. unfold renewTorSession, send. rewrite N. cbn [negb outcomes].
  rewrite (listen_still_open _ _ _ _ _ O), outcomes_writes.
  cbn [listen append]. unfold on_end. now rewrite app_nil_r.
Qed.

Lemma success_at_newline (data : string) :
  line_terminator env = nl ->
  success env data = success node_posix data.
Proof. intros E. unfold success, lines. now rewrite E. Qed.

End Outcomes.

(** C2.  When the peer closes the socket and the text received up to then is
    classified as a success, [renewTorSession] calls [done] once, with
    [null] for the error and the message [Tor session successfully
    renewed!!].  Where the line terminator is the newline, the response of
    three [250] lines is such a text. *)
Theorem renewTorSession_reports_success (rev : Revision) (env : Env)
    (tcp : TorControlPortType) (pre : list SocketEvent) :
  net_loaded env = true ->
  still_open pre = true ->
  (success env (received pre) = true ->
   outcomes (renewTorSession rev env tcp report (pre ++ [OnEnd]))
   = [(None, Some "Tor session successfully renewed!!")]) /\
  (line_terminator env = nl ->
   received pre
   = "250 OK" ++ nl ++ "250 OK" ++ nl ++ "250 closing connection" ++ nl ->
   outcomes (renewTorSession rev env tcp report (pre ++ [OnEnd]))
   = [(None, Some "Tor session successfully renewed!!")]).
Proof.
  intros N O.
  assert (G : success env (received pre) = true ->
              outcomes (renewTorSession rev env tcp report (pre ++ [OnEnd]))
              = [(None, Some "Tor session successfully renewed!!")]).
  { intros S. rewrite outcomes_renew_end by assumption.
    unfold renew_callback. now rewrite S. }
  split; [exact G|].
  intros E R. apply G. now rewrite (success_at_newline _ _ E), R.
Qed.

Lemma renewTorSession_reports_success_witness :
  outcomes
    (renewTorSession NamedExports node_posix TorControlPort report
       [OnConnect; OnData ("250 OK" ++ nl);
        OnData ("250 OK" ++ nl ++ "250 closing connection" ++ nl); OnEnd])
  = [(None, Some "Tor session successfully renewed!!")].
Proof.
  exact (proj1 (renewTorSession_reports_success NamedExports node_posix
                  TorControlPort
                  [OnConnect; OnData ("250 OK" ++ nl);
                   OnData ("250 OK" ++ nl ++ "250 closing connection" ++ nl)]
                  eq_refl eq_refl) eq_refl).
Defined.




(** C7.  When the socket reports an error before the peer has closed it,
    [send] calls its caller once, with an error whose message holds the
    question the hint opens with.  The same holds of [renewTorSession], and
    in that run the response is never classified.  (Node closes a socket
    after ['error'], so the run ends there.) *)
Theorem transport_error_outcome (rev : Revision) (env : Env)
    (tcp : TorControlPortType) (commands : list string)
    (pre : list SocketEvent) (err : Error) :
  net_loaded env = true ->
  still_open pre = true ->
  (exists e : Error,
     outcomes (send rev env commands report tcp (pre ++ [OnError err]))
     = [(Some e, None)] /\
     includes (message e) hint_question = true) /\
  (exists e : Error,
     outcomes (renewTorSession rev env tcp report (pre ++ [OnError err]))
     = [(Some e, None)] /\
     includes (message e) hint_question = true) /\
  classified (renewTorSession rev env tcp report (pre ++ [OnError err])) = [].
Proof.
  intros N O.
  destruct (attach_some_question rev env err) as [e1 [s1 [A1 [M1 I1]]]].
  destruct (attach_some_question rev env e1) as [e2 [s2 [A2 [M2 I2]]]].
  repeat split.
  - exists e1. split; [|exact I1].
    unfold send. rewrite N. cbn [negb outcomes].
    rewrite (listen_still_open _ _ _ _ _ _ _ O), outcomes_writes.
    cbn [listen]. unfold on_error. now rewrite A1.
  - exists e2. split; [|exact I2].
    unfold renewTorSession, send. rewrite N. cbn [negb outcomes].
    rewrite (listen_still_open _ _ _ _ _ _ _ O), outcomes_writes.
    cbn [listen]. unfold on_error. rewrite A1. cbn [or_default].
    unfold renew_callback. now rewrite A2.
  - unfold renewTorSession, send. rewrite N. cbn [negb classified].
    rewrite (listen_still_open _ _ _ _ _ _ _ O), classified_writes.
    cbn [listen]. unfold on_error. rewrite A1. cbn [or_default].
    unfold renew_callback. now rewrite A2.
Qed.

Lemma transport_error_outcome_witness :
  (exists e : Error,
     outcomes (send NamedExports node_posix ["signal newnym"] report
                 TorControlPort
                 [OnError {| message := "Failed to connect" |}])
     = [(Some e, None)] /\
     includes (message e) hint_question = true) /\
  classified (renewTorSession NamedExports node_posix TorControlPort report
                [OnError {| message := "Failed to connect" |}]) = [].
Proof.
  pose proof (transport_error_outcome NamedExports node_posix TorControlPort
                ["signal newnym"] [] {| message := "Failed to connect" |}
                eq_refl eq_refl) as [S [_ C]].
  exact (conj S C).
Defined.

(* ================================================================== *)
(** * Proxy settings *)

(** The defaults of the module. *)
Lemma default_proxy_settings :
  _defaultProxySettings
  = {| ipaddress := "127.0.0.1"; port := 9050%Z; type := 5%Z |}.
Proof. reflexivity. Qed.

(** C9.  [createProxySettings] never returns the address [localhost],
    whatever it is given and whatever the defaults are: when the caller
    passes [localhost], or passes no address and the defaults hold
    [localhost], the address returned is [127.0.0.1].  With the defaults of
    the module, and also with no defaults at all, a port or a type that is
    absent comes out as 9050 and 5. *)
Theorem createProxySettings_never_localhost
    (dps : option ProxySettings) (ip : option string) (prt typ : option Z)
    (d : ProxySettings) :
  ipaddress (createProxySettings dps ip prt typ) <> "localhost" /\
  ipaddress (createProxySettings dps (Some "localhost") prt typ) = "127.0.0.1" /\
  ipaddress
    (createProxySettings
       (Some {| ipaddress := "localhost"; port := port d; type := type d |})
       None prt typ) = "127.0.0.1" /\
  port (createProxySettings (Some _defaultProxySettings) ip None typ) = 9050%Z /\
  type (createProxySettings (Some _defaultProxySettings) ip prt None) = 5%Z /\
  port (createProxySettings None ip None typ) = 9050%Z /\
  type (createProxySettings None ip prt None) = 5%Z.
Proof.
  assert (L : forall p : ProxySettings,
             ipaddress (if (ipaddress p =? "localhost")%string
                        then {| ipaddress := "127.0.0.1";
                                port := port p; type := type p |}
                        else p) <> "localhost").
  { intros p. destruct (ipaddress p =? "localhost")%string eqn:E.
    - discriminate.
    - now apply String.eqb_neq. }
  assert (P : forall p : ProxySettings,
             port (if (ipaddress p =? "localhost")%string
                   then {| ipaddress := "127.0.0.1";
                           port := port p; type := type p |}
                   else p) = port p)
    by (intros p; now destruct (ipaddress p =? "localhost")%string).
  assert (T : forall p : ProxySettings,
             type (if (ipaddress p =? "localhost")%string
                   then {| ipaddress := "127.0.0.1";
                           port := port p; type := type p |}
                   else p) = type p)
    by (intros p; now destruct (ipaddress p =? "localhost")%string).
  split; [apply L|].
  split; [reflexivity|].
  split; [reflexivity|].
  unfold createProxySettings. rewrite !P, !T. repeat split.
Qed.

(* ================================================================== *)
(** * Attaching the hint more than once *)

Section Occurrences.

Lemma occurrences_cons (a : string) (c : ascii) (s : string) :
  occurrences a (String c s)
  = (if prefix a (String c s) then 1 else 0) + occurrences a s.
Proof. reflexivity. Qed.

Lemma occurrences_zero_iff (a s : string) :
  occurrences a s = 0 <-> includes s a = false.
Proof.
  induction s as [|c s IH].
  - rewrite includes_nil. cbn [occurrences].
    destruct (prefix a EmptyString); split; intros H; try discriminate;
      reflexivity.
  - rewrite includes_cons, occurrences_cons, orb_false_iff, <- IH.
    destruct (prefix a (String c s)); split.
    + discriminate.
    + intros [H _]; discriminate.
    + intros H. split; [reflexivity | exact H].
    + intros [_ H]. exact H.
Qed.

(** A non-empty text occurs in itself once. *)
Lemma occurrences_self (a : string) :
  a <> EmptyString -> occurrences a a = 1.
Proof.
  intros NE. destruct a as [|c t]; [contradiction|].
  rewrite occurrences_cons, prefix_refl.
  assert (Z : occurrences (String c t) t = 0).
  { apply occurrences_zero_iff, includes_short. simpl. lia. }
  now rewrite Z.
Qed.

(** When no end of [a] is a start of [a], no occurrence of [a] in
    [y ++ a] begins inside [y] and ends inside [a]. *)
Lemma no_straddle (a y : string) :
  has_border a = false -> y <> EmptyString ->
  prefix a y = false -> prefix a (y ++ a) = false.
Proof.
  intros B NE P.
  destruct (Nat.le_gt_cases (String.length a) (String.length y)) as [L|L].
  - now rewrite prefix_append_long.
  - destruct (prefix a (y ++ a)) eqn:Q; [|reflexivity].
    apply prefix_iff in Q as [r Q].
    assert (D : a = drop (String.length y) a ++ r).
    { rewrite <- (drop_append y a) at 1. rewrite Q.
      apply drop_append_long. lia. }
    unfold has_border in B. rewrite <- B. symmetry.
    apply existsb_exists. exists (String.length y). split.
    + apply in_seq. destruct y; [contradiction | simpl in *; lia].
    + apply prefix_iff. now exists r.
Qed.

(** Appending such a text to a message that does not hold it makes it
    occur exactly once. *)
Lemma occurrences_appended (a m : string) :
  a <> EmptyString -> has_border a = false ->
  includes m a = false -> occurrences a (m ++ a) = 1.
Proof.
  intros NE B. induction m as [|c m IH]; intros I.
  - now apply occurrences_self.
  - rewrite includes_cons in I. apply orb_false_iff in I as [P I].
    change (String c m ++ a) with (String c (m ++ a)).
    rewrite occurrences_cons.
    change (String c (m ++ a)) with (String c m ++ a).
    rewrite (no_straddle a (String c m) B), (IH I);
      [reflexivity | discriminate | exact P].
Qed.

End Occurrences.

Section Locations.
Variable env : Env.

Lemma probe_suffixes_result (torPath : string) (sfx : list string) :
  probe_suffixes env torPath sfx = None \/
  probe_suffixes env torPath sfx = Some (torPath ++ " ?").
Proof.
  induction sfx as [|s sfx IH]; simpl; [now left|].
  destruct (torrc_exists env (torPath ++ s)); [now right | exact IH].
Qed.

Lemma probe_paths_result (ps : list string) :
  probe_paths env ps = None \/
  exists torPath, In torPath ps /\ probe_paths env ps = Some (torPath ++ " ?").
Proof.
  induction ps as [|p ps IH]; cbn [probe_paths]; [now left|].
  destruct (probe_suffixes_result p suffixes) as [E|E]; rewrite E.
  - destruct IH as [IH | [q [In1 IH]]]; [now left|].
    right. exists q. split; [now right | exact IH].
  - right. exists p. split; [now left | reflexivity].
Qed.

(** [getTorrcLocation] returns one of eight texts. *)
Lemma getTorrcLocation_range : In (getTorrcLocation env) torrc_locations.
Proof.
  unfold getTorrcLocation, torrc_locations.
  destruct (negb (path_loaded env) || negb (fs_loaded env) || _);
    [now left|].
  right. destruct (probe_paths_result paths) as [E | [p [I E]]]; rewrite E.
  - now left.
  - right. exact (in_map (fun torPath => torPath ++ " ?") paths p I).
Qed.

End Locations.

(** The hint is never empty, and no end of it is a start of it. *)
Lemma attachment_no_border (rev : Revision) (env : Env) :
  attachment rev (getTorrcLocation env) <> EmptyString /\
  has_border (attachment rev (getTorrcLocation env)) = false.
Proof.
  split; [discriminate|].
  assert (A : forallb (fun loc => negb (has_border (attachment rev loc)))
                torrc_locations = true)
    by (destruct rev; vm_compute; reflexivity).
  rewrite forallb_forall in A.
  apply negb_true_iff, A, getTorrcLocation_range.
Qed.

(** C8, as the specification words it, fails: an error whose message holds
    the hint twice still holds it twice after the hint was attached two more
    times, so it is not the case that the hint occurs at most once in the
    message of every error. *)
Lemma hint_twice_stays_twice :
  occurrences sample_hint
    (message_of
       (attachCommonControlPortErrorDetails NamedExports node_posix
          (attachCommonControlPortErrorDetails NamedExports node_posix
             (Some hinted_twice)))) = 2.
Proof. vm_compute. reflexivity. Qed.

(** C8, amended.  In one and the same runtime, attaching the hint a second
    time changes nothing: the error is as it was after the first time (and
    [null] stays [null]).  The second call adds no copy of the hint, and when
    the message held the hint at most once to begin with, it holds it exactly
    once afterwards. *)
Theorem attach_hint_idempotent (rev : Revision) (env : Env) (e : Error) :
  let attach := attachCommonControlPortErrorDetails rev env in
  let hint := attachment rev (getTorrcLocation env) in
  attach (attach (Some e)) = attach (Some e) /\
  attach (attach None) = None /\
  (occurrences hint (message e) <= 1 ->
   occurrences hint (message_of (attach (attach (Some e)))) = 1).
Proof.
  intros attach hint.
  assert (I : attach (attach (Some e)) = attach (Some e)).
  { subst attach. destruct (attach_some rev env e) as [e' [s [A [_ I]]]].
    rewrite A. unfold attachCommonControlPortErrorDetails at 1.
    now rewrite I. }
  repeat split; [exact I|].
  intros L. rewrite I.
  destruct (attachment_no_border rev env) as [NE B].
  subst attach hint. unfold attachCommonControlPortErrorDetails.
  destruct (includes (message e) (attachment rev (getTorrcLocation env)))
    eqn:C; cbn [negb message_of message].
  - destruct (occurrences (attachment rev (getTorrcLocation env)) (message e))
      as [|[|n]] eqn:O; [|reflexivity | lia].
    apply occurrences_zero_iff in O. congruence.
  - now apply occurrences_appended.
Qed.

Lemma attach_hint_idempotent_witness :
  occurrences sample_hint
    (message_of
       (attachCommonControlPortErrorDetails NamedExports node_posix
          (attachCommonControlPortErrorDetails NamedExports node_posix
             (Some {| message := "Failed to connect" |})))) = 1.
Proof.
  apply (attach_hint_idempotent NamedExports node_posix
           {| message := "Failed to connect" |}).
  vm_compute. lia.
Defined.

(* ================================================================== *)
(** * Runs worked out *)

(** The scan of [split] on a separator that overlaps itself. *)
Example split_overlapping : split "aaaa" "aa" = [EmptyString; EmptyString; EmptyString].
Proof. reflexivity. Qed.

Example slice_drops_last : slice [1; 2; 3; 4] 0 (-1) = [1; 2; 3].
Proof. reflexivity. Qed.

(** The token counts wherever it stands in the line. *)
Example token_inside_line :
  success node_posix ("650 circuit 250 built" ++ nl) = true /\
  success node_posix ("515 Something went wrong" ++ nl) = false /\
  success node_posix ("250 OK" ++ nl ++ nl ++ "250 OK" ++ nl) = true.
Proof. repeat split. Qed.

(** The renewal that the test suite plays: the three replies arrive without
    a newline after the last one. *)
Example renewal_run :
  renewTorSession NamedExports node_posix TorControlPort report
    [OnConnect;
     OnData ("250 OK" ++ nl ++ "250 OK" ++ nl ++ "250 closing connection");
     OnEnd]
  = [Connect "localhost" 9051%Z;
     Write ("authenticate " ++ dquote ++ dquote ++ nl ++
            "signal newnym" ++ nl ++ "quit" ++ nl);
     Classify ("250 OK" ++ nl ++ "250 OK" ++ nl ++ "250 closing connection");
     Done None (Some "Tor session successfully renewed!!")].
Proof. reflexivity. Qed.

(** A reply that is not followed by a newline is not looked at. *)
Example unterminated_failure_reply :
  outcomes
    (renewTorSession NamedExports node_posix TorControlPort report
       [OnConnect; OnData "515 Something went wrong"; OnEnd])
  = [(None, Some "Tor session successfully renewed!!")].
Proof. reflexivity. Qed.

(** Where the terminator is carriage return and newline, a reply that ends
    with a bare newline is not looked at either. *)
Example windows_bare_newline :
  success node_windows ("515 Something went wrong" ++ nl) = true /\
  success node_windows ("515 Something went wrong" ++ cr ++ nl) = false.
Proof. split; reflexivity. Qed.

(** Without the [net] module nothing is opened and the caller is told so. *)
Example browser_run (events : list SocketEvent) :
  send NamedExports browser ["signal newnym"] report TorControlPort events
  = [Done (Some {| message :=
                     "ControlPort is not available in browser environment" |})
          None].
Proof. reflexivity. Qed.

(** The earlier revision throws when its callback is handed neither an error
    nor data; the current one reports a failure. *)
Example callback_without_data :
  renew_callback DefaultExport node_posix report None None
  = [Throw "TypeError: Cannot read properties of undefined"] /\
  exists e, renew_callback NamedExports node_posix report None None
            = [Done (Some e) None].
Proof. split; [reflexivity | eexists; reflexivity]. Qed.

(* ================================================================== *)
(** * More about the proxy settings *)

Section ProxyFacts.

Lemma or_default_truthy {A : Type} (truthy : A -> bool) (a : option A) (d : A) :
  truthy d = true -> truthy (or_default truthy a d) = true.
Proof.
  intros T. unfold or_default. destruct a as [x|]; [|exact T].
  destruct (truthy x) eqn:E; [exact E | exact T].
Qed.

Lemma or_default_self {A : Type} (truthy : A -> bool) (x d : A) (b : option A) :
  truthy x = true ->
  or_default truthy (js_or truthy (Some x) b) d = x.
Proof. intros T. unfold js_or, or_default. now rewrite T, T. Qed.

Lemma or_default_falsy {A : Type} (truthy : A -> bool) (x d : A) (b : option A) :
  truthy x = false ->
  or_default truthy (js_or truthy (Some x) b) d
  = or_default truthy (js_or truthy None b) d.
Proof. intros T. unfold js_or. now rewrite T. Qed.

Lemma truthy_number_iff (n : Z) : truthy_number n = true <-> n <> 0%Z.
Proof. unfold truthy_number. rewrite negb_true_iff. apply Z.eqb_neq. Qed.

Lemma truthy_string_iff (s : string) :
  truthy_string s = true <-> s <> EmptyString.
Proof. destruct s; simpl; split; congruence. Qed.

Lemma createProxySettings_eqb_localhost dps ip prt typ :
  (ipaddress (createProxySettings dps ip prt typ) =? "localhost")%string
  = false.
Proof.
  unfold createProxySettings. cbn [ipaddress].
  match goal with
  | |- context [if (?a =? "localhost")%string then _ else _] =>
      destruct (a =? "localhost")%string eqn:E
  end; cbn [ipaddress]; [reflexivity | exact E].
Qed.

End ProxyFacts.

(** Whatever it is given, [createProxySettings] returns settings with an
    address that is not empty and a port and a type that are not zero; and
    giving these settings back to it, field by field and under any defaults,
    returns them unchanged. *)
Theorem createProxySettings_settled (dps dps' : option ProxySettings)
    (ip : option string) (prt typ : option Z) :
  let r := createProxySettings dps ip prt typ in
  ipaddress r <> EmptyString /\ port r <> 0%Z /\ type r <> 0%Z /\
  createProxySettings dps' (Some (ipaddress r)) (Some (port r)) (Some (type r))
  = r.
Proof.
  intros r.
  assert (TI : truthy_string (ipaddress r) = true).
  { subst r. unfold createProxySettings. cbn [ipaddress].
    destruct (_ =? "localhost")%string; cbn [ipaddress]; [reflexivity|].
    now apply or_default_truthy. }
  assert (TP : truthy_number (port r) = true).
  { subst r. unfold createProxySettings. cbn [ipaddress port].
    destruct (_ =? "localhost")%string; cbn [port];
      now apply or_default_truthy. }
  assert (TT : truthy_number (type r) = true).
  { subst r. unfold createProxySettings. cbn [ipaddress type].
    destruct (_ =? "localhost")%string; cbn [type];
      now apply or_default_truthy. }
  assert (NL : (ipaddress r =? "localhost")%string = false)
    by apply createProxySettings_eqb_localhost.
  repeat split.
  - now apply truthy_string_iff.
  - now apply truthy_number_iff.
  - now apply truthy_number_iff.
  - unfold createProxySettings.
    rewrite !or_default_self by assumption. cbn [ipaddress port type].
    rewrite NL. now destruct r.
Qed.



Section AgentFacts.

Lemma to_int_not_nil (z : Z) :
  Z.to_int z <> Decimal.Pos Decimal.Nil /\ Z.to_int z <> Decimal.Neg Decimal.Nil.
Proof.
  split; intros E; pose proof (DecimalZ.of_to z) as R; rewrite E in R;
    cbn in R; subst z; discriminate E.
Qed.

(** Two numbers that are written the same are the same. *)
Lemma number_to_string_inj (a b : Z) :
  number_to_string a = number_to_string b -> a = b.
Proof.
  unfold number_to_string. intros E.
  apply (f_equal NilZero.int_of_string) in E.
  destruct (to_int_not_nil a) as [A1 A2], (to_int_not_nil b) as [B1 B2].
  rewrite !NilZero.isi in E by assumption.
  injection E as E. apply (f_equal Z.of_int) in E.
  now rewrite !DecimalZ.of_to in E.
Qed.

Lemma number_to_string_is_4 (n : Z) :
  (number_to_string n =? "4")%string = (n =? 4)%Z.
Proof.
  destruct (Z.eqb_spec n 4) as [->|N]; [reflexivity|].
  apply String.eqb_neq. intros E. apply N.
  now apply number_to_string_inj.
Qed.

End AgentFacts.

(** The agent does not depend on the address that is fetched.  Its scheme is
    [socks4] exactly when the type the settings resolve to is the number 4,
    its host is never [localhost], and with the settings of the module, or
    with none, it is [socks://127.0.0.1:9050]. *)
Theorem createAgent_address (dps : option ProxySettings) (url url' : string) :
  let ps := createProxySettings dps None None None in
  createAgent dps url = createAgent dps url' /\
  createAgent dps url
  = (if (type ps =? 4)%Z then "socks4://" else "socks://")
    ++ ipaddress ps ++ ":" ++ number_to_string (port ps) /\
  ipaddress ps <> "localhost" /\
  createAgent (Some _defaultProxySettings) url = "socks://127.0.0.1:9050" /\
  createAgent None url = "socks://127.0.0.1:9050".
Proof.
  intros ps. split; [reflexivity|]. split.
  - unfold createAgent. fold ps. now rewrite number_to_string_is_4.
  - split; [|split; reflexivity].
    apply String.eqb_neq, createProxySettings_eqb_localhost.
Qed.

(* ================================================================== *)
(** * Where the configuration file is looked for *)

Section TorrcFacts.
Variable env : Env.

Lemma getTorrcLocation_probing :
  can_probe env = true ->
  getTorrcLocation env
  = match probe_paths env paths with
    | Some found => found
    | None => "torrc not found, specify with `tor --default-torrc <PATH>`"
    end.
Proof.
  unfold can_probe, getTorrcLocation.
  destruct (path_loaded env), (fs_loaded env), (os_EOL env);
    try discriminate; reflexivity.
Qed.

Lemma probe_suffixes_none_iff (torPath : string) (sfx : list string) :
  probe_suffixes env torPath sfx = None <->
  forall s, In s sfx -> torrc_exists env (torPath ++ s) = false.
Proof.
  induction sfx as [|x sfx IH]; simpl.
  - split; [intros _ s [] | reflexivity].
  - destruct (torrc_exists env (torPath ++ x)) eqn:E; split.
    + discriminate.
    + intros A. rewrite (A x) in E; [discriminate | now left].
    + intros N s [<-|I]; [exact E | now apply IH].
    + intros A. apply IH. intros s I. apply A. now right.
Qed.

Lemma probe_paths_none_iff (ps : list string) :
  probe_paths env ps = None <->
  forall p s, In p ps -> In s suffixes ->
              torrc_exists env (p ++ s) = false.
Proof.
  induction ps as [|q ps IH]; cbn [probe_paths].
  - split; [intros _ p s [] | reflexivity].
  - destruct (probe_suffixes_result env q suffixes) as [E|E]; rewrite E.
    + rewrite IH. pose proof (proj1 (probe_suffixes_none_iff q suffixes) E) as E'.
      clear E. rename E' into E. split.
      * intros A p s [<-|I] J; [now apply E | now apply A].
      * intros A p s I J. apply A; [now right | exact J].
    + split; [discriminate|]. intros A.
      assert (N : probe_suffixes env q suffixes = None).
      { apply probe_suffixes_none_iff. intros s J. apply A; [now left | exact J]. }
      congruence.
Qed.

Lemma probe_paths_first (before after : list string) (p : string) :
  (forall q s, In q before -> In s suffixes ->
               torrc_exists env (q ++ s) = false) ->
  probe_suffixes env p suffixes <> None ->
  probe_paths env (before ++ p :: after)%list = Some (p ++ " ?").
Proof.
  intros A F. induction before as [|q before IH]; cbn [probe_paths app].
  - destruct (probe_suffixes_result env p suffixes) as [E|E];
      [contradiction | now rewrite E].
  - assert (N : probe_suffixes env q suffixes = None).
    { apply probe_suffixes_none_iff. intros s J. apply A; [now left | exact J]. }
    rewrite N. apply IH. intros q' s I J. apply A; [now right | exact J].
Qed.

End TorrcFacts.

(** With [path], [fs] and [os] loaded, [getTorrcLocation] answers that no
    [torrc] was found exactly when none of the six paths exists, with or
    without the suffix [.sample]. *)
Theorem getTorrcLocation_not_found (env : Env) :
  can_probe env = true ->
  (getTorrcLocation env
   = "torrc not found, specify with `tor --default-torrc <PATH>`"
   <-> forall p s, In p paths -> In s suffixes ->
                   torrc_exists env (p ++ s) = false).
Proof.
  intros C. rewrite (getTorrcLocation_probing env C), <- probe_paths_none_iff.
  destruct (probe_paths_result env paths) as [E | [p [I E]]]; rewrite E.
  - tauto.
  - split; [|discriminate]. intros F. exfalso.
    assert (A : forallb (fun q => negb (q ++ " ?" =?
      "torrc not found, specify with `tor --default-torrc <PATH>`")%string)
      paths = true) by reflexivity.
    rewrite forallb_forall in A. specialize (A p I).
    apply negb_true_iff, String.eqb_neq in A. contradiction.
Qed.

Lemma getTorrcLocation_not_found_witness :
  getTorrcLocation node_posix
  = "torrc not found, specify with `tor --default-torrc <PATH>`".
Proof.
  apply (getTorrcLocation_not_found node_posix eq_refl).
  intros p s _ _. reflexivity.
Defined.

(** With the three modules loaded, the answer is the first of the six paths,
    in the order of the list, that exists as it is or with [.sample] added.
    It is given as the path followed by a question mark, without the suffix,
    so the answer does not tell whether the file or its sample was found. *)
Theorem getTorrcLocation_first_match (env : Env)
    (before after : list string) (p : string) :
  can_probe env = true ->
  paths = (before ++ p :: after)%list ->
  (forall q s, In q before -> In s suffixes ->
               torrc_exists env (q ++ s) = false) ->
  torrc_exists env p = true \/ torrc_exists env (p ++ ".sample") = true ->
  getTorrcLocation env = p ++ " ?".
Proof.
  intros C P A F. rewrite (getTorrcLocation_probing env C), P.
  rewrite (probe_paths_first env before after p A); [reflexivity|].
  intros N. rewrite probe_suffixes_none_iff in N.
  destruct F as [F|F].
  - rewrite <- (append_nil_r p), N in F; [discriminate | now left].
  - rewrite N in F; [discriminate | right; now left].
Qed.

Lemma getTorrcLocation_first_match_witness :
  getTorrcLocation node_with_sample = "/etc/tor/torrc ?".
Proof.
  apply (getTorrcLocation_first_match node_with_sample
           ["/usr/local/etc/tor/torrc"; "/tor/etc/tor/torrc"]
           ["/lib/etc/tor/torrc"; "~/.torrc";
            "~/Library/Application Support/TorBrowser-Data/torrc"]
           "/etc/tor/torrc" eq_refl eq_refl).
  - intros q s [<-|[<-|[]]] [<-|[<-|[]]]; reflexivity.
  - right. reflexivity.
Defined.

(* ================================================================== *)
(** * The hint for a proxy that is not running *)

Section TorHint.
Variable rev : Revision.

Lemma tor_attachment_has_question :
  includes (tor_attachment rev) "Are you running `tor`?" = true.
Proof.
  apply includes_iff. unfold tor_attachment.
  exists (nl ++ nl ++ nl ++ " - "). eexists.
  rewrite !append_assoc. cbn [append nl]. reflexivity.
Qed.

(** What the call leaves behind: the message it found, possibly with the
    hint after it. *)
Lemma attachCommonErrorDetails_some (e : Error) :
  exists e' suffix,
    attachCommonErrorDetails rev (Some e) = Some e' /\
    message e' = message e ++ suffix /\
    (proxy_unreachable (message e) = true ->
     includes (message e') (tor_attachment rev) = true) /\
    (proxy_unreachable (message e) = false -> e' = e).
Proof.
  unfold attachCommonErrorDetails.
  destruct (proxy_unreachable (message e)).
  - destruct (includes (message e) (tor_attachment rev)) eqn:I; cbn [negb].
    + exists e, EmptyString. rewrite append_nil_r.
      split; [reflexivity|]. split; [reflexivity|].
      split; [exact (fun _ => I) | discriminate].
    + eexists _, _.
      split; [reflexivity|]. split; [reflexivity|].
      split; [|discriminate].
      intros _. apply includes_append_r.
  - exists e, EmptyString. rewrite append_nil_r.
    split; [reflexivity|]. split; [reflexivity|].
    split; [discriminate | reflexivity].
Qed.

End TorHint.

(** Attaching the hint for a proxy that is not running a second time changes
    nothing, for every error and for [null]; and the message the error had
    is still the start of the message it has afterwards. *)
Theorem attachCommonErrorDetails_idempotent (rev : Revision)
    (err : option Error) :
  attachCommonErrorDetails rev (attachCommonErrorDetails rev err)
  = attachCommonErrorDetails rev err /\
  exists suffix,
    message_of (attachCommonErrorDetails rev err) = message_of err ++ suffix.
Proof.
  destruct err as [e|]; [|split; [reflexivity | now exists EmptyString]].
  split.
  - unfold attachCommonErrorDetails.
    destruct (proxy_unreachable (message e)) eqn:U; [|now rewrite U].
    destruct (includes (message e) (tor_attachment rev)) eqn:I; cbn [negb].
    + now rewrite U, I.
    + cbn [message].
      destruct (proxy_unreachable (message e ++ tor_attachment rev));
        [|reflexivity].
      now rewrite includes_append_r.
  - destruct (attachCommonErrorDetails_some rev e) as [e' [s [A [M _]]]].
    exists s. now rewrite A.
Qed.

(** An error whose message holds [ECONNREFUSED] anywhere, or whose whole
    message is [socket closed] in whatever letter case, comes out holding the
    hint and its question [Are you running `tor`?]; any other error is left
    as it is. *)
Theorem attachCommonErrorDetails_when (rev : Revision) (e : Error) :
  (includes (message e) "ECONNREFUSED" = true
   \/ toLowerCase (message e) = "socket closed" ->
   includes (message_of (attachCommonErrorDetails rev (Some e)))
            "Are you running `tor`?" = true) /\
  (includes (message e) "ECONNREFUSED" = false ->
   toLowerCase (message e) <> "socket closed" ->
   attachCommonErrorDetails rev (Some e) = Some e).
Proof.
  destruct (attachCommonErrorDetails_some rev e) as [e' [s [A [_ [T F]]]]].
  rewrite A. cbn [message_of]. split.
  - intros H.
    assert (U : proxy_unreachable (message e) = true).
    { unfold proxy_unreachable. apply orb_true_iff.
      destruct H as [H|H]; [now left | right; now apply String.eqb_eq]. }
    exact (includes_trans _ _ _ (T U) (tor_attachment_has_question rev)).
  - intros N1 N2. f_equal. apply F. unfold proxy_unreachable.
    rewrite N1. now apply String.eqb_neq.
Qed.

Lemma attachCommonErrorDetails_when_witness :
  includes
    (message_of (attachCommonErrorDetails NamedExports
                   (Some {| message := "Socket Closed" |})))
    "Are you running `tor`?" = true /\
  attachCommonErrorDetails NamedExports
    (Some {| message := "socket closed by peer" |})
  = Some {| message := "socket closed by peer" |}.
Proof.
  split.
  - apply (attachCommonErrorDetails_when NamedExports
             {| message := "Socket Closed" |}).
    right. reflexivity.
  - apply (attachCommonErrorDetails_when NamedExports
             {| message := "socket closed by peer" |});
      [reflexivity | discriminate].
Defined.

(* ================================================================== *)
(** * Requests through the proxy *)

(** When [axios] rejects, [torfetch] throws.  For a cancelled request it
    throws a new error that says [Request was aborted] and nothing else, so
    neither the message of what was caught nor a hint is passed on.
    Otherwise it throws the error it caught: the message still starts as it
    did, and where it holds [ECONNREFUSED] it now holds the question
    [Are you running `tor`?].  When [axios] fulfils, the response carries
    its data, status and status text. *)
Theorem torfetch_settles {Hdr Bdy Sig Dat : Type} (headersObj : Hdr -> Hdr)
    (rev : Revision) (dps : option ProxySettings)
    (axios : Params Hdr Bdy Sig -> AxiosResult Dat)
    (input : RequestInfo) (init : option (RequestInit Hdr Bdy Sig)) :
  (forall err,
     axios (params headersObj rev dps input init) = Rejected true err ->
     torfetch headersObj rev dps axios input init
     = Thrown {| message := "Request was aborted" |}) /\
  (forall err,
     axios (params headersObj rev dps input init) = Rejected false err ->
     exists e suffix,
       torfetch headersObj rev dps axios input init = Thrown e /\
       message e = message err ++ suffix /\
       (includes (message err) "ECONNREFUSED" = true ->
        includes (message e) "Are you running `tor`?" = true)) /\
  (forall d st tx,
     axios (params headersObj rev dps input init) = Fulfilled d st tx ->
     torfetch headersObj rev dps axios input init
     = Resolved {| body := d; status := st; statusText := tx |}).
Proof.
  unfold torfetch. split; [|split].
  - intros err R. now rewrite R.
  - intros err R. rewrite R. cbn [settle].
    destruct (attachCommonErrorDetails_some rev err) as [e [s [A [M [T _]]]]].
    exists e, s. rewrite A. cbn [or_default].
    split; [reflexivity|]. split; [exact M|].
    intros I. apply (includes_trans _ (tor_attachment rev)).
    + apply T. unfold proxy_unreachable. now rewrite I.
    + apply tor_attachment_has_question.
  - intros d st tx R. now rewrite R.
Qed.

Lemma torfetch_settles_witness :
  exists e suffix,
    torfetch (Dat := unit) (fun h : unit => h) NamedExports
      (Some _defaultProxySettings)
      (fun _ : Params unit unit unit =>
         Rejected false {| message := "connect ECONNREFUSED 127.0.0.1:9050" |})
      (Address "http://example.com") None
    = Thrown e /\
    message e = "connect ECONNREFUSED 127.0.0.1:9050" ++ suffix /\
    (includes "connect ECONNREFUSED 127.0.0.1:9050" "ECONNREFUSED" = true ->
     includes (message e) "Are you running `tor`?" = true).
Proof.
  exact (proj1 (proj2 (torfetch_settles (Dat := unit) (fun h : unit => h)
           NamedExports (Some _defaultProxySettings)
           (fun _ => Rejected false
                       {| message := "connect ECONNREFUSED 127.0.0.1:9050" |})
           (Address "http://example.com") None))
         {| message := "connect ECONNREFUSED 127.0.0.1:9050" |} eq_refl).
Defined.

(** Each of the six helpers calls [axios] with the method its verb names, in
    capitals and [DELETE] for [del], whatever method the options name; the
    address, headers, body and signal are those of the call.  [torfetch]
    itself, called without options, asks for [GET]. *)
Theorem verb_helpers_fix_the_method {Hdr Bdy Sig Dat : Type}
    (headersObj : Hdr -> Hdr) (rev : Revision) (dps : option ProxySettings)
    (axios : Params Hdr Bdy Sig -> AxiosResult Dat)
    (uri : string) (options : option (RequestInit Hdr Bdy Sig)) :
  Forall
    (fun vm : string * string =>
       verbFunc headersObj rev dps axios (fst vm) uri options
       = settle rev
           (axios
              {| url := uri;
                 method := snd vm;
                 headers :=
                   match rev with
                   | DefaultExport => opt_field options init_headers
                   | NamedExports =>
                       option_map headersObj (opt_field options init_headers)
                   end;
                 data := opt_field options init_body;
                 signal := opt_field options init_signal;
                 httpAgent := createAgent dps uri |}))
    [("get", "GET"); ("head", "HEAD"); ("post", "POST"); ("put", "PUT");
     ("patch", "PATCH"); ("del", "DELETE")] /\
  map fst [("get", "GET"); ("head", "HEAD"); ("post", "POST"); ("put", "PUT");
           ("patch", "PATCH"); ("del", "DELETE")] = verbs /\
  method (params headersObj rev dps (Address uri)
            (@None (RequestInit Hdr Bdy Sig))) = "GET".
Proof.
  split; [|split; reflexivity].
  repeat constructor.
Qed.

(* ================================================================== *)
(** * More about the control channel *)

Section ChannelFacts.
Variables (rev : Revision) (env : Env).

Lemma renew_callback_error (e : Error) (value : option string) :
  exists e',
    renew_callback rev env report (Some e) value = [Done (Some e') None] /\
    includes (message e') hint_question = true.
Proof.
  destruct (attach_some_question rev env e) as [e' [s [A [_ I]]]].
  exists e'. unfold renew_callback, report. now rewrite A.
Qed.

Lemma renew_callback_data (raw : string) :
  renew_callback rev env report None (Some raw)
  = [Classify raw; Done None (Some renewed)]
  \/ exists e',
       renew_callback rev env report None (Some raw)
       = [Classify raw; Done (Some e') None] /\
       includes (message e') hint_question = true.
Proof.
  unfold renew_callback, report, comerr.
  destruct (success env raw); cbn [negb]; [now left | right].
  destruct (attach_some_question rev env
              {| message := preamble ++ nl ++ raw |}) as [e' [s [A [_ I]]]].
  exists e'. now rewrite A.
Qed.

(** What the ['error'] listener hands to [done]. *)
Lemma on_error_some (done : Callback) (err : Error) :
  exists e', on_error rev env done (Some err) = done (Some e') None.
Proof.
  destruct (attach_some rev env err) as [e' [s [A _]]].
  exists e'. unfold on_error. now rewrite A.
Qed.

Lemma length_outcomes_listen commands data events :
  List.length (outcomes (listen rev env commands report data events))
  = errors events + ends events.
Proof.
  revert data.
  induction events as [|[|err|chunk|] rest IH]; intros data;
    cbn [listen errors ends].
  - reflexivity.
  - apply IH.
  - destruct (on_error_some report err) as [e' ->].
    cbn. now rewrite IH.
  - apply IH.
  - cbn. rewrite IH. lia.
Qed.

Lemma renew_listen_counts commands data events :
  List.length (outcomes (listen rev env commands
                           (renew_callback rev env report) data events))
  = errors events + ends events /\
  List.length (classified (listen rev env commands
                             (renew_callback rev env report) data events))
  = ends events.
Proof.
  revert data.
  induction events as [|[|err|chunk|] rest IH]; intros data;
    cbn [listen errors ends].
  - now split.
  - apply IH.
  - destruct (on_error_some (renew_callback rev env report) err) as [e' ->].
    destruct (renew_callback_error e' None) as [e2 [-> _]].
    destruct (IH data) as [O C]. cbn. now rewrite O, C.
  - apply IH.
  - unfold on_end. destruct (IH data) as [O C].
    destruct (renew_callback_data data) as [-> | [e' [-> _]]];
      cbn; rewrite O, C; split; lia.
Qed.

End ChannelFacts.

(** Neither [send] nor [renewTorSession] keeps track of whether the caller
    was already called: with [net] loaded, [done] is called once for every
    ['error'] and once for every ['end'] the socket reports, and a renewal
    classifies the text received so far at every ['end'].  Without [net],
    [send] calls [done] once and ignores the socket. *)
Theorem done_once_per_error_and_end (rev : Revision) (env : Env)
    (tcp : TorControlPortType) (commands : list string)
    (events : list SocketEvent) :
  (net_loaded env = true ->
   List.length (outcomes (send rev env commands report tcp events))
   = errors events + ends events /\
   List.length (outcomes (renewTorSession rev env tcp report events))
   = errors events + ends events /\
   List.length (classified (renewTorSession rev env tcp report events))
   = ends events) /\
  (net_loaded env = false ->
   List.length (outcomes (send rev env commands report tcp events)) = 1).
Proof.
  split; intros N.
  - unfold renewTorSession, send. rewrite N. cbn [negb outcomes classified].
    split; [apply length_outcomes_listen | apply renew_listen_counts].
  - unfold send. now rewrite N.
Qed.

Lemma done_once_per_error_and_end_witness :
  List.length
    (outcomes (send NamedExports node_posix ["signal newnym"] report
                 TorControlPort
                 [OnConnect; OnError {| message := "read ECONNRESET" |};
                  OnEnd])) = 2.
Proof.
  exact (proj1 (proj1 (done_once_per_error_and_end NamedExports node_posix
                         TorControlPort ["signal newnym"]
                         [OnConnect;
                          OnError {| message := "read ECONNRESET" |}; OnEnd])
                 eq_refl)).
Defined.

(** When the peer closes a socket that reported no error, [send] calls its
    caller once, with no error and with the texts of the chunks, each as
    [toString] gave it, put together in the order they came; with no chunk
    that is the empty text.  Which commands were sent and how often the
    socket connected makes no difference to it. *)
Theorem send_delivers_received (rev : Revision) (env : Env)
    (tcp : TorControlPortType) (commands commands' : list string)
    (pre : list SocketEvent) :
  net_loaded env = true ->
  still_open pre = true ->
  outcomes (send rev env commands report tcp (pre ++ [OnEnd]))
  = [(None, Some (received pre))] /\
  outcomes (send rev env commands' report tcp (OnConnect :: pre ++ [OnEnd]))
  = outcomes (send rev env commands report tcp (pre ++ [OnEnd])) /\
  outcomes (send rev env commands report tcp [OnEnd])
  = [(None, Some EmptyString)].
Proof.
  intros N O.
  assert (G : forall cs p, still_open p = true ->
              outcomes (send rev env cs report tcp (p ++ [OnEnd]))
              = [(None, Some (received p))]).
  { intros cs p Op. unfold send. rewrite N. cbn [negb outcomes].
    now rewrite (listen_still_open _ _ _ _ _ _ _ Op), outcomes_writes. }
  split; [now apply G|]. split.
  - rewrite (G commands pre O).
    exact (G commands' (OnConnect :: pre) O).
  - exact (G commands [] eq_refl).
Qed.

Lemma send_delivers_received_witness :
  outcomes (send NamedExports node_posix ["signal newnym"] report
              TorControlPort
              [OnConnect; OnData "250"; OnData (" OK" ++ nl); OnEnd])
  = [(None, Some ("250 OK" ++ nl))].
Proof.
  exact (proj1 (send_delivers_received NamedExports node_posix TorControlPort
                  ["signal newnym"] []
                  [OnConnect; OnData "250"; OnData (" OK" ++ nl)]
                  eq_refl eq_refl)).
Defined.

(* ================================================================== *)
(** * What is written, read back *)

Section ReadBack.

Lemma prefix_char (c d : ascii) (s : string) :
  prefix (String c EmptyString) (String d s) = true <-> c = d.
Proof.
  rewrite prefix_cons, prefix_nil. tauto.
Qed.

Lemma includes_nl_append (a b : string) :
  includes (a ++ b) nl = includes a nl || includes b nl.
Proof.
  induction a as [|d a IH].
  - cbn [append]. now rewrite includes_nil.
  - change (String d a ++ b) with (String d (a ++ b)).
    rewrite !includes_cons, IH, orb_assoc. f_equal. f_equal.
    unfold nl. cbn [prefix].
    destruct (ascii_dec "010" d); [now rewrite !prefix_nil | reflexivity].
Qed.

(** A text without a newline, then a newline: the cut is there. *)
Lemma cut_nl (x rest : string) :
  includes x nl = false ->
  cut nl (x ++ nl ++ rest) = Some (x, rest).
Proof.
  induction x as [|d x IH]; intros F.
  - cbn [append]. rewrite cut_hit by apply prefix_append.
    now rewrite drop_append.
  - rewrite includes_cons in F. apply orb_false_iff in F as [P F].
    change (String d x ++ nl ++ rest) with (String d (x ++ nl ++ rest)).
    rewrite cut_miss_cons.
    + now rewrite IH.
    + unfold nl in *. cbn [prefix] in *.
      destruct (ascii_dec "010" d); [|reflexivity].
      now rewrite prefix_nil in P.
Qed.

Lemma nl_not_nil : nl <> EmptyString.
Proof. discriminate. Qed.

(** The pieces of a batch: the commands, and the empty text after the last
    newline. *)
Lemma split_batch (commands : list string) :
  commands <> [] ->
  Forall (fun c => includes c nl = false) commands ->
  split (join commands nl ++ nl) nl = (commands ++ [EmptyString])%list.
Proof.
  intros NE F. induction F as [|x rest Fx Frest IH]; [contradiction|].
  clear NE. unfold join in *. destruct rest as [|y rest].
  - cbn [String.concat app]. rewrite split_unfold by apply nl_not_nil.
    pose proof (cut_nl x EmptyString Fx) as C.
    rewrite append_nil_r in C. rewrite C.
    rewrite split_unfold by apply nl_not_nil. reflexivity.
  - cbn [String.concat]. rewrite !append_assoc.
    rewrite split_unfold by apply nl_not_nil.
    rewrite (cut_nl x _ Fx). cbn [app]. f_equal.
    apply IH. discriminate.
Qed.

End ReadBack.

(** What [send] writes can be taken apart again: split at the newline, with
    the last element dropped as [renewTorSession] does for a response, it is
    the list of commands, as long as there is a command and none holds a
    newline.  The empty list is written as a lone newline, which reads back
    as one empty command. *)
Theorem send_batch_reads_back (commands : list string) :
  (commands <> [] ->
   Forall (fun c => includes c nl = false) commands ->
   slice (split (join commands nl ++ nl) nl) 0 (-1) = commands) /\
  slice (split (join [] nl ++ nl) nl) 0 (-1) = [EmptyString].
Proof.
  split; [|reflexivity].
  intros NE F. rewrite slice_0_m1, split_batch by assumption.
  apply removelast_last.
Qed.

Lemma send_batch_reads_back_witness :
  slice (split (join ["signal newnym"; "quit"] nl ++ nl) nl) 0 (-1)
  = ["signal newnym"; "quit"].
Proof.
  apply (send_batch_reads_back ["signal newnym"; "quit"]);
    [discriminate | repeat constructor].
Defined.

(** The password is put between the quotes as it is.  When it holds a
    newline, what follows the newline is written as a line of its own (with
    the closing quote at its end), ahead of [signal newnym]: the batch then
    reads back as four lines. *)
Theorem renewTorSession_password_not_escaped (rev : Revision) (env : Env)
    (h : string) (n : Z) (p1 p2 : string) :
  net_loaded env = true ->
  includes p1 nl = false ->
  includes p2 nl = false ->
  exists bytes,
    written (renewTorSession rev env
               {| password := Some (p1 ++ nl ++ p2); host := h;
                  control_port := n |} report [OnConnect]) = [bytes] /\
    slice (split bytes nl) 0 (-1)
    = ["authenticate " ++ dquote ++ p1; p2 ++ dquote;
       "signal newnym"; "quit"].
Proof.
  intros N F1 F2.
  exists (join ["authenticate " ++ dquote ++ p1; p2 ++ dquote;
                "signal newnym"; "quit"] nl ++ nl).
  split.
  - unfold renewTorSession, send. rewrite N. cbn [negb written].
    rewrite written_listen by apply renew_callback_writes_nothing.
    cbn [connects repeat password or_default]. f_equal.
    assert (T : truthy_string (p1 ++ nl ++ p2) = true).
    { destruct p1; reflexivity. }
    rewrite T. unfold join. cbn [String.concat].
    now rewrite !append_assoc.
  - rewrite slice_0_m1, split_batch; [apply removelast_last | discriminate |].
    repeat constructor; rewrite ?includes_nl_append, ?F1, ?F2; reflexivity.
Qed.

Lemma renewTorSession_password_not_escaped_witness :
  exists bytes,
    written (renewTorSession NamedExports node_posix
               {| password := Some ("secret" ++ dquote ++ nl ++ "signal halt");
                  host := "localhost"; control_port := 9051%Z |}
               report [OnConnect]) = [bytes] /\
    slice (split bytes nl) 0 (-1)
    = ["authenticate " ++ dquote ++ ("secret" ++ dquote);
       "signal halt" ++ dquote; "signal newnym"; "quit"].
Proof.
  exact (renewTorSession_password_not_escaped NamedExports node_posix
           "localhost" 9051%Z ("secret" ++ dquote) "signal halt"
           eq_refl eq_refl eq_refl).
Defined.

(* ================================================================== *)
(** * Every outcome of a renewal *)

Section RenewalFacts.
Variables (rev : Revision) (env : Env).

Lemma renew_listen_well_formed commands data events :
  Forall well_formed
    (outcomes (listen rev env commands (renew_callback rev env report)
                 data events)).
Proof.
  revert data.
  induction events as [|[|err|chunk|] rest IH]; intros data; cbn [listen].
  - constructor.
  - apply IH.
  - destruct (on_error_some rev env (renew_callback rev env report) err)
      as [e' ->].
    destruct (renew_callback_error rev env e' None) as [e2 [-> I2]].
    constructor; [right; now exists e2 | apply IH].
  - apply IH.
  - unfold on_end.
    destruct (renew_callback_data rev env data) as [-> | [e' [-> I']]].
    + constructor; [now left | apply IH].
    + constructor; [right; now exists e' | apply IH].
Qed.

Lemma attachment_long (location : string) :
  52 <= String.length (attachment rev location).
Proof.
  unfold attachment. rewrite !length_append. simpl. lia.
Qed.

End RenewalFacts.

(** Whatever the socket reports and in whatever runtime, every call that
    [renewTorSession] makes to its caller through the [send] of the module
    carries either the success message and no error, or an error and no
    message, never both and never neither; and every such error holds the
    question of the hint, be it an error of the socket, a response that was
    not a success, or the lack of [net]. *)
Theorem renewTorSession_outcomes_well_formed (rev : Revision) (env : Env)
    (tcp : TorControlPortType) (events : list SocketEvent) :
  Forall well_formed (outcomes (renewTorSession rev env tcp report events)).
Proof.
  unfold renewTorSession, send. destruct (net_loaded env); cbn [negb].
  - cbn [outcomes]. apply renew_listen_well_formed.
  - match goal with
    | |- context [renew_callback rev env report (Some ?e) None] =>
        destruct (renew_callback_error rev env e None) as [e' [-> I]]
    end.
    constructor; [right; now exists e' | constructor].
Qed.

(** Where [net] is not loaded, a renewal opens no socket and writes nothing,
    whatever events are offered: it calls [done] once, with an error whose
    message is [ControlPort is not available in browser environment]
    followed by the ControlPort hint. *)
Theorem renewTorSession_without_net (rev : Revision) (env : Env)
    (tcp : TorControlPortType) (events : list SocketEvent) :
  net_loaded env = false ->
  renewTorSession rev env tcp report events
  = [Done (Some {| message :=
                     "ControlPort is not available in browser environment"
                     ++ attachment rev (getTorrcLocation env) |})
          None].
Proof.
  intros N. unfold renewTorSession, send. rewrite N. cbn [negb].
  unfold renew_callback, report, attachCommonControlPortErrorDetails.
  cbn [message]. rewrite includes_short; [reflexivity|].
  pose proof (attachment_long rev (getTorrcLocation env)). simpl. lia.
Qed.

Lemma renewTorSession_without_net_witness :
  renewTorSession NamedExports browser TorControlPort report [OnConnect; OnEnd]
  = [Done (Some {| message :=
                     "ControlPort is not available in browser environment"
                     ++ attachment NamedExports
                          "torrc not available in browser environment" |})
          None].
Proof.
  exact (renewTorSession_without_net NamedExports browser TorControlPort
           [OnConnect; OnEnd] eq_refl).
Defined.

(* ================================================================== *)
(** * Classifying a response in two parts *)

Section Composition.
Variable env : Env.

(** After the tested lines of a response the scan goes on as if it started
    afresh. *)
Lemma split_after_tested (data rest : string) :
  split (tested_part env data ++ rest) (line_terminator env)
  = (lines env data ++ split rest (line_terminator env))%list.
Proof.
  unfold tested_part. rewrite lines_removelast.
  pose proof (line_terminator_not_nil env) as NE.
  induction data as [s C | s b a C IH]
    using (split_ind (line_terminator env) NE);
    rewrite (split_unfold s), C by exact NE.
  - reflexivity.
  - pose proof (split_not_nil a _ NE) as N.
    rewrite (removelast_cons _ _ N).
    cbn [terminated]. rewrite !append_assoc.
    rewrite split_unfold by exact NE.
    rewrite (cut_stable _ _ _ _
               (terminated (removelast (split a (line_terminator env)))
                  (line_terminator env) ++ rest) C).
    now rewrite IH.
Qed.

Lemma lines_after_tested (data rest : string) :
  lines env (tested_part env data ++ rest)
  = (lines env data ++ lines env rest)%list.
Proof.
  rewrite (lines_removelast env (_ ++ _)), split_after_tested.
  rewrite removelast_app by apply split_not_nil, line_terminator_not_nil.
  now rewrite <- lines_removelast.
Qed.

End Composition.

(** A response classifies part by part.  When the scan of [first] ends on a
    terminator, so that nothing of [first] is left out, the lines of
    [first ++ rest] are those of [first] followed by those of [rest], and
    the whole is a success exactly when both parts are.  In general this
    holds of [first] without the text after its last terminator. *)
Theorem success_of_two_parts (env : Env) (first rest : string) :
  lines env (tested_part env first ++ rest)
  = (lines env first ++ lines env rest)%list /\
  success env (tested_part env first ++ rest)
  = success env first && success env rest /\
  (last_line env first = EmptyString ->
   success env (first ++ rest) = success env first && success env rest).
Proof.
  assert (S : success env (tested_part env first ++ rest)
              = success env first && success env rest).
  { unfold success, every. rewrite lines_after_tested. apply forallb_app. }
  split; [apply lines_after_tested|]. split; [exact S|].
  intros L. rewrite (response_parts env first) at 1.
  now rewrite L, append_nil_r.
Qed.

Lemma success_of_two_parts_witness :
  success node_posix (("250 OK" ++ nl) ++ ("515 Something went wrong" ++ nl))
  = success node_posix ("250 OK" ++ nl)
    && success node_posix ("515 Something went wrong" ++ nl).
Proof.
  apply (success_of_two_parts node_posix ("250 OK" ++ nl)
           ("515 Something went wrong" ++ nl)).
  reflexivity.
Defined.
